(** * Shallow embedding of the poczytajmy-backend text heuristics, the
      provider race with a deadline, and the greeting-history cache.

    Sources: [src/index.js] (deployed server) and [src/unnamed/part_001]
    (the version with the motivation agent and ASR accuracy scoring).

    JavaScript strings are modelled as lists of Unicode code points ([jstr]).
    Where the code measures or slices strings ([s.length], [s.slice]) the
    UTF-16 view is written out explicitly.  Rocq string literals are UTF-8
    byte strings; [js] decodes them into code points so that test inputs can
    be written with their Polish letters. *)

From Stdlib Require Import ZArith QArith Qpower Qminmax Qround String Ascii Lqa.
From stdpp Require Import base list gmap sets.

Local Open Scope Z_scope.

Abbreviation jstr := (list Z).

(** ** Literals *)

Definition byte_val (a : ascii) : Z := Z.of_nat (nat_of_ascii a).

(** UTF-8 decoding of a Rocq string literal into code points. *)
Fixpoint utf8_decode (s : string) : jstr :=
  match s with
  | EmptyString => []
  | String a r =>
      let b := byte_val a in
      if b <? 128 then b :: utf8_decode r
      else if b <? 224 then
        match r with
        | String a2 r2 => ((b - 192) * 64 + (byte_val a2 - 128)) :: utf8_decode r2
        | EmptyString => [b]
        end
      else if b <? 240 then
        match r with
        | String a2 (String a3 r3) =>
            ((b - 224) * 4096 + (byte_val a2 - 128) * 64 + (byte_val a3 - 128))
              :: utf8_decode r3
        | _ => [b]
        end
      else
        match r with
        | String a2 (String a3 (String a4 r4)) =>
            ((b - 240) * 262144 + (byte_val a2 - 128) * 4096
              + (byte_val a3 - 128) * 64 + (byte_val a4 - 128)) :: utf8_decode r4
        | _ => [b]
        end
  end.

Definition js (s : string) : jstr := utf8_decode s.

(** ** Character classes of the ECMAScript regular expressions *)

(** [\s] (WhiteSpace and LineTerminator); also the set removed by [trim]. *)
Definition is_space (c : Z) : bool :=
  (c =? 9) || (c =? 10) || (c =? 11) || (c =? 12) || (c =? 13) || (c =? 32)
  || (c =? 160) || (c =? 5760) || ((8192 <=? c) && (c <=? 8202))
  || (c =? 8232) || (c =? 8233) || (c =? 8239) || (c =? 8287)
  || (c =? 12288) || (c =? 65279).

(** [\d] *)
Definition is_digit (c : Z) : bool := (48 <=? c) && (c <=? 57).

(** [\w] = [[A-Za-z0-9_]] *)
Definition is_word_basic (c : Z) : bool :=
  ((65 <=? c) && (c <=? 90)) || ((97 <=? c) && (c <=? 122)) || is_digit c || (c =? 95).

(** [\w] under the flags [iu]: also the two characters whose simple case
    folding is a basic word character (U+017F and U+212A). *)
Definition is_word_iu (c : Z) : bool :=
  is_word_basic c || (c =? 383) || (c =? 8490).

(** [String.prototype.toLowerCase] on one code point, for the Basic Latin,
    Latin-1, Latin Extended-A (the whole Polish alphabet), basic Greek and
    basic Cyrillic blocks; other code points are left unchanged. *)
Definition lower_cp (c : Z) : jstr :=
  if (65 <=? c) && (c <=? 90) then [c + 32]
  else if ((192 <=? c) && (c <=? 222) && negb (c =? 215)) then [c + 32]
  else if c =? 304 then [105; 775]
  else if c =? 376 then [255]
  else if ((256 <=? c) && (c <=? 311) && Z.even c) then [c + 1]
  else if ((313 <=? c) && (c <=? 328) && Z.odd c) then [c + 1]
  else if ((330 <=? c) && (c <=? 375) && Z.even c) then [c + 1]
  else if ((377 <=? c) && (c <=? 382) && Z.odd c) then [c + 1]
  else if ((913 <=? c) && (c <=? 939) && negb (c =? 930)) then [c + 32]
  else if ((1024 <=? c) && (c <=? 1039)) then [c + 80]
  else if ((1040 <=? c) && (c <=? 1071)) then [c + 32]
  else [c].

Definition toLowerCase (s : jstr) : jstr := s ≫= lower_cp.

(** Simple case folding (Canonicalize of the [i] flag with [u]), on the same
    blocks as [lower_cp]. *)
Definition simple_fold (c : Z) : Z :=
  if c =? 304 then c
  else if c =? 383 then 115
  else if c =? 181 then 956
  else if c =? 8490 then 107
  else if c =? 8491 then 229
  else match lower_cp c with [d] => d | _ => c end.

(** ** String helpers *)

Fixpoint drop_while (p : Z -> bool) (s : jstr) : jstr :=
  match s with
  | c :: r => if p c then drop_while p r else s
  | [] => []
  end.

Fixpoint take_while (p : Z -> bool) (s : jstr) : jstr :=
  match s with
  | c :: r => if p c then c :: take_while p r else []
  | [] => []
  end.

Definition js_trim_start (s : jstr) : jstr := drop_while is_space s.

Definition js_trim (s : jstr) : jstr := reverse (js_trim_start (reverse (js_trim_start s))).

(** [s.replace(/\s+/g, ' ')]; [in_ws] tells whether the previous character
    belonged to a whitespace run already replaced. *)
Fixpoint collapse_go (in_ws : bool) (s : jstr) : jstr :=
  match s with
  | [] => []
  | c :: r =>
      if is_space c then (if in_ws then collapse_go true r else 32 :: collapse_go true r)
      else c :: collapse_go false r
  end.

Definition collapse_ws (s : jstr) : jstr := collapse_go false s.

(** [s.split(re)] for a regular expression matching exactly one character
    of the class [sep]. *)
Fixpoint split_by (sep : Z -> bool) (s : jstr) : list jstr :=
  match s with
  | [] => [[]]
  | c :: r =>
      if sep c then [] :: split_by sep r
      else match split_by sep r with
           | w :: ws => (c :: w) :: ws
           | [] => [[c]]
           end
  end.

(** [s.split(c)] for a one-character string [c]. *)
Definition split_on (c : Z) (s : jstr) : list jstr := split_by (Z.eqb c) s.

(** [.filter(Boolean)] on strings *)
Definition filter_nonempty (l : list jstr) : list jstr :=
  filter (fun w => w ≠ []) l.

(** [Array.from(new Set(l))]: first occurrences, in insertion order. *)
Definition set_add (acc : list jstr) (x : jstr) : list jstr :=
  if decide (x ∈ acc) then acc else acc ++ [x].

Definition js_set (l : list jstr) : list jstr := foldl set_add [] l.

(** [x || y] on a string (or [undefined]) and a fallback. *)
Definition js_or (x : option jstr) (y : option jstr) : option jstr :=
  match x with
  | Some s => if decide (s = []) then y else x
  | None => y
  end.

(** ** index.js: normalize, jaccard, chooseMostNovel, parseList *)

(** the class of the first [replace] in [normalize]:
    „ ” U+0022 ! ? . , ; : ( ) - – — [ ] { } … *)
Definition normalize_punct (c : Z) : bool :=
  (c =? 8222) || (c =? 8221) || (c =? 34) || (c =? 33) || (c =? 63) || (c =? 46)
  || (c =? 44) || (c =? 59) || (c =? 58) || (c =? 40) || (c =? 41) || (c =? 45)
  || (c =? 8211) || (c =? 8212) || (c =? 91) || (c =? 93) || (c =? 123)
  || (c =? 125) || (c =? 8230).

Definition normalize (text : jstr) : jstr :=
  js_trim (collapse_ws (filter (fun c => negb (normalize_punct c)) (toLowerCase text))).

(** [normalize(s).split(' ').filter(Boolean)] *)
Definition tokens (s : jstr) : list jstr := filter_nonempty (split_on 32 (normalize s)).

(** The intersection count of the [for (const w of A) if (B.has(w)) inter++] loop. *)
Definition inter_count (A B : list jstr) : nat :=
  length (filter (fun w => w ∈ B) A).

Definition jaccard (a b : jstr) : Q :=
  let A := js_set (tokens a) in
  let B := js_set (tokens b) in
  if decide (length A = 0%nat ∧ length B = 0%nat) then 1%Q
  else
    let inter := inter_count A B in
    inject_Z (Z.of_nat inter)
      / inject_Z (Z.of_nat (length A) + Z.of_nat (length B) - Z.of_nat inter).

(** [x < y] on numbers *)
Definition Qltb (x y : Q) : bool := negb (Qle_bool y x).

(** [Math.max(0, ...xs)] *)
Definition js_max0 (xs : list Q) : Q := foldl Qmax 0%Q xs.

(** [history] is [None] when absent. *)
Definition chooseMostNovel (cands : list jstr) (history : option (list jstr)) : jstr :=
  match history with
  | None | Some [] => default [] (js_or (head cands) (Some []))
  | Some h =>
      let '(best, _) :=
        foldl (fun (st : jstr * Q) c =>
                 let '(best, bestScore) := st in
                 let maxSim := js_max0 (map (jaccard c) h) in
                 if Qltb maxSim bestScore then (c, maxSim) else (best, bestScore))
              ([], 1%Q) cands in
      default [] (js_or (js_or (Some best) (head cands)) (Some []))
  end.

(** [text.split(/\r?\n/)] *)
Fixpoint split_lines (s : jstr) : list jstr :=
  match s with
  | [] => [[]]
  | 13 :: 10 :: r => [] :: split_lines r
  | 10 :: r => [] :: split_lines r
  | c :: r =>
      match split_lines r with
      | w :: ws => (c :: w) :: ws
      | [] => [[c]]
      end
  end.

(** the class [[-*\d.)]] *)
Definition is_marker (c : Z) : bool :=
  (c =? 45) || (c =? 42) || is_digit c || (c =? 46) || (c =? 41).

(** [l.replace(/^[-*\d.)]+\s*/, '')] *)
Definition strip_marker (l : jstr) : jstr :=
  match l with
  | c :: _ =>
      if is_marker c then js_trim_start (drop_while is_marker l) else l
  | [] => []
  end.

Definition word_count (s : jstr) : nat := length (tokens s).

Definition parseList (text : jstr) : list jstr :=
  let lines := filter_nonempty (map js_trim (split_lines text)) in
  let items := filter_nonempty (map strip_marker lines) in
  let uniq := filter (fun s => (5 <= word_count s)%nat ∧ (word_count s <= 16)%nat)
                (js_set items) in
  take 20 uniq.

(** ** index.js: sanitizeNoName *)

(** Case-insensitive match of a literal at the head of [s] (flag [i]):
    the rest of [s] and the last character consumed. *)
Fixpoint match_ci (lit s : jstr) (last : option Z) : option (jstr * option Z) :=
  match lit, s with
  | [], _ => Some (s, last)
  | l :: lr, c :: r => if simple_fold l =? simple_fold c then match_ci lr r (Some c) else None
  | _ :: _, [] => None
  end.

(** [\b] between the previous character and the rest (flags [iu]). *)
Definition word_boundary (prev : option Z) (rest : jstr) : bool :=
  xorb (match prev with Some c => is_word_iu c | None => false end)
       (match rest with c :: _ => is_word_iu c | [] => false end).

(** [(?:w1|w2|...)\b]: the alternatives are tried in order. *)
Fixpoint match_alt_b (alts : list jstr) (prev : option Z) (s : jstr)
  : option (jstr * option Z) :=
  match alts with
  | [] => None
  | w :: ws =>
      match match_ci w s prev with
      | Some (rest, last) =>
          if word_boundary last rest then Some (rest, last) else match_alt_b ws prev s
      | None => match_alt_b ws prev s
      end
  end.

Definition FORBIDDEN_HELLOS : list jstr :=
  [js "cześć"; js "hej"; js "witaj"; js "siema"; js "halo"].

(** [\s,!.?] *)
Definition is_name_tail (c : Z) : bool :=
  is_space c || (c =? 44) || (c =? 33) || (c =? 46) || (c =? 63).

(** [[,–—\-|:;!.\s]] *)
Definition is_lead_junk (c : Z) : bool :=
  (c =? 44) || (c =? 8211) || (c =? 8212) || (c =? 45) || (c =? 124) || (c =? 58)
  || (c =? 59) || (c =? 33) || (c =? 46) || is_space c.

Section Sanitizer.

(** Membership in [\p{L}] or [\p{M}] (Unicode general categories Letter and
    Mark); the Unicode tables are a parameter of the development. *)
Variable is_letter_mark : Z -> bool.

(** [[\p{L}\p{M}\s,!.?–—-]] *)
Definition is_hello_tail (c : Z) : bool :=
  is_letter_mark c || is_space c || (c =? 44) || (c =? 33) || (c =? 46) || (c =? 63)
  || (c =? 8211) || (c =? 8212) || (c =? 45).

(** [s.replace(helloRe, '')] with
    [helloRe = /^\s*(?:cześć|hej|witaj|siema|halo)\b[\p{L}\p{M}\s,!.?–—-]*/iu]. *)
Definition strip_hello (s : jstr) : jstr :=
  let s1 := drop_while is_space s in
  match match_alt_b FORBIDDEN_HELLOS (last (take (length s - length s1) s)) s1 with
  | Some (rest, _) => drop_while is_hello_tail rest
  | None => s
  end.

(** The name forms [[name, name+'u', name+'o', name+'e', name+'a', name+'ku']]. *)
Definition name_forms (name : jstr) : list jstr :=
  [name; name ++ [117]; name ++ [111]; name ++ [101]; name ++ [97]; name ++ [107; 117]].

(** [s.replace(nameRe, '')] with [nameRe = /\b(?:forms)\b[\s,!.?]*/giu]:
    the global replace scans left to right; after a match it resumes at the
    end of the match, where [\b] still looks at the input character before. *)
Fixpoint strip_names_go (fuel : nat) (forms : list jstr) (prev : option Z) (s : jstr) : jstr :=
  match fuel with
  | O => s
  | S fuel' =>
      match s with
      | [] => []
      | c :: r =>
          let m := if word_boundary prev s then match_alt_b forms prev s else None in
          match m with
          | Some (rest, last_c) =>
              let tail := take_while is_name_tail rest in
              let prev' := match reverse tail with t :: _ => Some t | [] => last_c end in
              strip_names_go fuel' forms prev' (drop (length tail) rest)
          | None => c :: strip_names_go fuel' forms (Some c) r
          end
      end
  end.

Definition strip_names (name s : jstr) : jstr :=
  strip_names_go (S (length s)) (name_forms name) None s.

Definition sanitizeNoName (name raw : jstr) : jstr :=
  let s := js_trim raw in
  let s := js_trim (strip_hello s) in
  let s := if decide (name = []) then s else js_trim (strip_names name s) in
  js_trim (drop_while is_lead_junk s).

End Sanitizer.

(** ** part_001: tightenMotivation *)

(** [\p{Extended_Pictographic}] (Unicode emoji-data ranges). *)
Definition EXT_PICT_RANGES : list (Z * Z) :=
  [(0xA9, 0xA9); (0xAE, 0xAE); (0x203C, 0x203C); (0x2049, 0x2049); (0x2122, 0x2122);
   (0x2139, 0x2139); (0x2194, 0x2199); (0x21A9, 0x21AA); (0x231A, 0x231B); (0x2328, 0x2328);
   (0x2388, 0x2388); (0x23CF, 0x23CF); (0x23E9, 0x23F3); (0x23F8, 0x23FA); (0x24C2, 0x24C2);
   (0x25AA, 0x25AB); (0x25B6, 0x25B6); (0x25C0, 0x25C0); (0x25FB, 0x25FE); (0x2600, 0x2605);
   (0x2607, 0x2612); (0x2614, 0x2685); (0x2690, 0x2705); (0x2708, 0x2712); (0x2714, 0x2714);
   (0x2716, 0x2716); (0x271D, 0x271D); (0x2721, 0x2721); (0x2728, 0x2728); (0x2733, 0x2734);
   (0x2744, 0x2744); (0x2747, 0x2747); (0x274C, 0x274C); (0x274E, 0x274E); (0x2753, 0x2755);
   (0x2757, 0x2757); (0x2763, 0x2767); (0x2795, 0x2797); (0x27A1, 0x27A1); (0x27B0, 0x27B0);
   (0x27BF, 0x27BF); (0x2934, 0x2935); (0x2B05, 0x2B07); (0x2B1B, 0x2B1C); (0x2B50, 0x2B50);
   (0x2B55, 0x2B55); (0x3030, 0x3030); (0x303D, 0x303D); (0x3297, 0x3297); (0x3299, 0x3299);
   (0x1F000, 0x1F0FF); (0x1F10D, 0x1F10F); (0x1F12F, 0x1F12F); (0x1F16C, 0x1F171);
   (0x1F17E, 0x1F17F); (0x1F18E, 0x1F18E); (0x1F191, 0x1F19A); (0x1F1AD, 0x1F1E5);
   (0x1F201, 0x1F20F); (0x1F21A, 0x1F21A); (0x1F22F, 0x1F22F); (0x1F232, 0x1F23A);
   (0x1F23C, 0x1F23F); (0x1F249, 0x1F3FA); (0x1F400, 0x1F53D); (0x1F546, 0x1F64F);
   (0x1F680, 0x1F6FF); (0x1F774, 0x1F77F); (0x1F7D5, 0x1F7FF); (0x1F80C, 0x1F80F);
   (0x1F848, 0x1F84F); (0x1F85A, 0x1F85F); (0x1F888, 0x1F88F); (0x1F8AE, 0x1F8FF);
   (0x1F90C, 0x1F93A); (0x1F93C, 0x1F945); (0x1F947, 0x1FAFF); (0x1FC00, 0x1FFFD)].

Definition Extended_Pictographic (c : Z) : bool :=
  existsb (fun '(lo, hi) => (lo <=? c) && (c <=? hi)) EXT_PICT_RANGES.

(** [[\p{Extended_Pictographic}️]] *)
Definition is_emoji (c : Z) : bool := Extended_Pictographic c || (c =? 0xFE0F).

(** [[.!?…]] *)
Definition is_terminal (c : Z) : bool := (c =? 46) || (c =? 33) || (c =? 63) || (c =? 8230).

(** the class of the first [replace]: U+0022 “ ” „ ' ( ) *)
Definition is_quote_paren (c : Z) : bool :=
  (c =? 34) || (c =? 8220) || (c =? 8221) || (c =? 8222) || (c =? 39) || (c =? 40) || (c =? 41).

(** the delimiter class [D] = « » „ ” U+0022 ' of [/D.*?D/g] *)
Definition is_quote_delim (c : Z) : bool :=
  (c =? 171) || (c =? 187) || (c =? 8222) || (c =? 8221) || (c =? 34) || (c =? 39).

(** line terminators, the characters [.] does not match *)
Definition is_line_term (c : Z) : bool := (c =? 10) || (c =? 13) || (c =? 8232) || (c =? 8233).

(** [s.replace(/D.*?D/g, '')] for that class [D]. [open] holds the opening
    delimiter and the characters read since it (reversed) while the lazy
    [.*?] looks for the closing one; a line terminator or the end of input
    abandons the attempt and the characters are kept. *)
Fixpoint remove_quoted_go (open : option (Z * jstr)) (s : jstr) : jstr :=
  match s with
  | [] => match open with Some (q, buf) => q :: reverse buf | None => [] end
  | c :: r =>
      match open with
      | None => if is_quote_delim c then remove_quoted_go (Some (c, [])) r
                else c :: remove_quoted_go None r
      | Some (q, buf) =>
          if is_quote_delim c then remove_quoted_go None r
          else if is_line_term c then q :: reverse buf ++ c :: remove_quoted_go None r
          else remove_quoted_go (Some (q, c :: buf)) r
      end
  end.

Definition remove_quoted (s : jstr) : jstr := remove_quoted_go None s.

(** [s.split(/(?<=[.!?…])\s+/)]: [prev_term] tells whether the previous
    character is terminal punctuation, [skipping] whether a separator run
    is being consumed, [cur] is the current piece reversed. *)
Fixpoint split_sentences_go (prev_term skipping : bool) (cur : jstr) (s : jstr) : list jstr :=
  match s with
  | [] => [reverse cur]
  | c :: r =>
      if is_space c && (skipping || prev_term) then
        if skipping then split_sentences_go false true cur r
        else reverse cur :: split_sentences_go false true [] r
      else split_sentences_go (is_terminal c) false (c :: cur) r
  end.

Definition split_sentences (s : jstr) : list jstr := split_sentences_go false false [] s.

(** [.join(' ')] *)
Fixpoint join_space (l : list jstr) : jstr :=
  match l with
  | [] => []
  | [w] => w
  | w :: ws => w ++ 32 :: join_space ws
  end.

(** [s.replace(emojiRe, m => (++seen > 1 ? '' : m))] *)
Fixpoint keep_first_emoji (seen : bool) (s : jstr) : jstr :=
  match s with
  | [] => []
  | c :: r =>
      if is_emoji c then (if seen then keep_first_emoji true r else c :: keep_first_emoji true r)
      else c :: keep_first_emoji seen r
  end.

(** [s.length]: UTF-16 code units. *)
Definition utf16_len (s : jstr) : nat :=
  sum_list_with (fun c => if 65536 <=? c then 2%nat else 1%nat) s.

Definition high_surrogate (c : Z) : Z := 0xD800 + (Z.shiftr (c - 0x10000) 10) mod 1024.

(** [s.slice(0, n)] on code units; a surrogate pair cut in the middle leaves
    its high surrogate. *)
Fixpoint slice_units (n : nat) (s : jstr) : jstr :=
  match n, s with
  | O, _ => []
  | _, [] => []
  | S n', c :: r =>
      if 65536 <=? c then
        match n' with
        | O => [high_surrogate c]
        | S n'' => c :: slice_units n'' r
        end
      else c :: slice_units n' r
  end.

(** [s.replace(/\s+\S*$/, '')]: the leftmost match starts at the last
    whitespace run, when there is one. *)
Definition strip_last_word (s : jstr) : jstr :=
  match drop_while (fun c => negb (is_space c)) (reverse s) with
  | [] => s
  | r => reverse (drop_while is_space r)
  end.

(** [/[.!?…]$/.test(s)] *)
Definition ends_terminal (s : jstr) : bool :=
  match last s with Some c => is_terminal c | None => false end.

Definition tightenMotivation (s : jstr) (maxChars : nat) : jstr :=
  if decide (s = []) then s
  else
    let s := js_trim (collapse_ws (filter (fun c => negb (is_quote_paren c)) s)) in
    let s := js_trim (collapse_ws (remove_quoted s)) in
    let parts := filter_nonempty (split_sentences s) in
    let s := js_trim (join_space (take 2 parts)) in
    let s := keep_first_emoji false s in
    let s := if decide (maxChars < utf16_len s)%nat
             then js_trim (strip_last_word (slice_units maxChars s)) else s in
    if ends_terminal s then s else s ++ [46].

(** ** The provider race: [withDeadline(Promise.any(racers), DEADLINE_MS)] *)

Record ProviderResult := { provider : jstr; text : jstr; latency_ms : nat }.

Local Set Warnings "-register-all".

(** Thrown values: [new Error(msg)] and the [AggregateError] of [Promise.any]. *)
Inductive js_error :=
| ErrorMsg (msg : jstr)
| AggregateError (errors : list js_error).

(** [String(err?.message || err)]; V8 gives an [AggregateError] from
    [Promise.any] the message [All promises were rejected]. *)
Definition error_string (e : js_error) : jstr :=
  match e with
  | ErrorMsg m => if decide (m = []) then js "Error" else m
  | AggregateError _ => js "All promises were rejected"
  end.

Inductive outcome :=
| Fulfilled (v : ProviderResult)
| Rejected (e : js_error).

(** A promise that settles [at_ms] milliseconds after the request started. *)
Record settled := { at_ms : nat; result : outcome }.

(** What a provider does with the request: answers with a message content
    or fails (HTTP error, SDK exception); [None] for a call that never
    settles. *)
Inductive reply :=
| Answer (content : jstr)
| Fails (e : js_error).

Abbreviation call := (option (nat * reply)).

(** [groqChat(...)]: the trimmed content, possibly empty. *)
Definition groq_racer (c : call) : option settled :=
  match c with
  | Some (t, Answer txt) =>
      Some {| at_ms := t;
              result := Fulfilled {| provider := js "groq"; text := js_trim txt; latency_ms := t |} |}
  | Some (t, Fails e) => Some {| at_ms := t; result := Rejected e |}
  | None => None
  end.

(** The OpenAI racer: an empty content is turned into [OPENAI_EMPTY]. *)
Definition openai_racer (c : call) : option settled :=
  match c with
  | Some (t, Answer txt) =>
      let txt' := js_trim txt in
      Some {| at_ms := t;
              result := if decide (txt' = []) then Rejected (ErrorMsg (js "OPENAI_EMPTY"))
                        else Fulfilled {| provider := js "openai"; text := txt'; latency_ms := t |} |}
  | Some (t, Fails e) => Some {| at_ms := t; result := Rejected e |}
  | None => None
  end.

Definition fulfilled_at (r : option settled) : option (nat * ProviderResult) :=
  match r with
  | Some {| at_ms := t; result := Fulfilled v |} => Some (t, v)
  | _ => None
  end.

(** The earlier of two fulfilments. Fulfilments in the same millisecond
    are taken in push order, which is one of the orders in which the event
    loop may run them; [Promise.any] itself keeps whichever it sees first. *)
Definition earliest (a b : option (nat * ProviderResult)) : option (nat * ProviderResult) :=
  match a, b with
  | Some (ta, _), Some (tb, _) => if (tb <? ta)%nat then b else a
  | None, _ => b
  | _, None => a
  end.

Definition first_fulfilled (rs : list (option settled)) : option (nat * ProviderResult) :=
  foldl (fun acc r => earliest acc (fulfilled_at r)) None rs.

(** All racers rejected: the time of the last rejection and the errors in
    racer order ([Promise.any([])] rejects at once). *)
Definition all_rejected (rs : list (option settled)) : option (nat * list js_error) :=
  foldr (fun r acc =>
           match r, acc with
           | Some {| at_ms := t; result := Rejected e |}, Some (tm, es) => Some (Nat.max t tm, e :: es)
           | _, _ => None
           end) (Some (0%nat, [])) rs.

Definition promise_any (rs : list (option settled)) : option settled :=
  match first_fulfilled rs with
  | Some (t, v) => Some {| at_ms := t; result := Fulfilled v |}
  | None =>
      match all_rejected rs with
      | Some (t, es) => Some {| at_ms := t; result := Rejected (AggregateError es) |}
      | None => None
      end
  end.

Definition DEADLINE_EXCEEDED : js_error := ErrorMsg (js "DEADLINE_EXCEEDED").

(** The delay after which [setTimeout(f, ms)] fires: Node runs a delay
    below 1 ms or above [TIMEOUT_MAX] = 2147483647 ms as 1 ms. *)
Definition TIMEOUT_MAX : Z := 2147483647.

Definition node_delay (ms : nat) : nat :=
  if (1 <=? ms)%nat && (Z.of_nat ms <=? TIMEOUT_MAX)%Z then ms else 1%nat.

(** [withDeadline(promise, ms)]: the timer fires at [node_delay ms]; a
    promise settling strictly before it wins. *)
Definition withDeadline (p : option settled) (ms : nat) : settled :=
  let timer := node_delay ms in
  match p with
  | Some s => if (at_ms s <? timer)%nat then s
              else {| at_ms := timer; result := Rejected DEADLINE_EXCEEDED |}
  | None => {| at_ms := timer; result := Rejected DEADLINE_EXCEEDED |}
  end.

(** Process configuration read by the handlers. *)
Record Env := {
  GROQ_API_KEY_set : bool;      (* process.env.GROQ_API_KEY is non-empty *)
  OPENAI_API_KEY_set : bool;    (* the [openai] client exists *)
  MOCK_TEXT : bool;
  MOCK_ASR : bool;
  DEADLINE_MS : nat
}.

(** The [racers] array: Groq first, then OpenAI, each when configured. *)
Definition racers (env : Env) (groq openai : call) : list (option settled) :=
  (if GROQ_API_KEY_set env then [groq_racer groq] else [])
  ++ (if OPENAI_API_KEY_set env then [openai_racer openai] else []).

Definition race (env : Env) (groq openai : call) : settled :=
  withDeadline (promise_any (racers env groq openai)) (DEADLINE_MS env).

(** ** HTTP responses: [res.status(code).json({...})] *)

Inductive jval :=
| JBool (b : bool)
| JStr (s : jstr)
| JNum (q : Q).

Abbreviation response := (Z * list (string * jval))%type.

(** The [catch] block shared by both generation endpoints. *)
Definition error_response (e : js_error) : response :=
  if decide (error_string e = js "DEADLINE_EXCEEDED")
  then (504, [("ok"%string, JBool false); ("error"%string, JStr (js "DEADLINE_EXCEEDED")); ("timed_out"%string, JBool true)])
  else (502, [("ok"%string, JBool false); ("error"%string, JStr (error_string e))]).

(** ** index.js: generateGreetingV2 and POST /agent/generate-greeting *)

(** Decimal [String(n)] of an integer. *)
Fixpoint pos_digits (fuel : nat) (n : Z) (acc : jstr) : jstr :=
  match fuel with
  | O => acc
  | S f => if n <? 10 then (48 + n) :: acc else pos_digits f (n / 10) ((48 + n mod 10) :: acc)
  end.

Definition Z_to_dec (z : Z) : jstr :=
  if z <? 0 then 45 :: pos_digits 64 (- z) [] else pos_digits 64 z [].

(** [`${(name || '').toLowerCase()}|${Number(age) || 'X'}`]; [age] is the
    value of [Number(age)]: [Some n] for an integer, [None] for [NaN]. *)
Definition profileKey (name : jstr) (age : option Z) : jstr :=
  toLowerCase name ++ [124]
  ++ match age with
     | Some n => if decide (n = 0) then js "X" else Z_to_dec n
     | None => js "X"
     end.

(** [raw.split(/[.\n]/).map(s => s.trim()).filter(Boolean)] *)
Definition fallback_candidates (raw : jstr) : list jstr :=
  filter_nonempty (map js_trim (split_by (fun c => (c =? 46) || (c =? 10)) raw)).

(** [cands] after the fallback parse. *)
Definition greeting_candidates (raw : jstr) : list jstr :=
  let cands := parseList raw in
  if decide (cands = [] ∧ raw ≠ []) then fallback_candidates raw else cands.

Abbreviation history_map := (gmap jstr (list jstr)).

Section Greeting.

Variable is_letter_mark : Z -> bool.

(** [generateGreetingV2]: the [recentGreetings] map is threaded as state;
    the result is the thrown error or [{ text, source }]. *)
Definition generateGreetingV2 (env : Env) (recentGreetings : history_map)
    (name : jstr) (age : option Z) (groq openai : call)
  : history_map * (js_error + (jstr * jstr)) :=
  let winner := race env groq openai in
  match result winner with
  | Rejected e => (recentGreetings, inl e)
  | Fulfilled w =>
      let raw := text w in
      let cands := greeting_candidates raw in
      if decide (cands = []) then (recentGreetings, inl (ErrorMsg (js "EMPTY_GENERATION")))
      else
        let key := profileKey name age in
        let history := default [] (recentGreetings !! key) in
        let picked := chooseMostNovel cands (Some history) in
        let cleaned := sanitizeNoName is_letter_mark name picked in
        let finalText := default [] (js_or (Some cleaned) (Some picked)) in
        (<[key := take 20 (finalText :: history)]> recentGreetings,
         inr (finalText, default (js "unknown") (js_or (Some (provider w)) None)))
  end.

(** The route handler; [name] defaults to the empty string. *)
Definition generate_greeting_endpoint (env : Env) (recentGreetings : history_map)
    (name : jstr) (age : option Z) (groq openai : call) : history_map * response :=
  let '(h, r) := generateGreetingV2 env recentGreetings name age groq openai in
  match r with
  | inr (t, src) => (h, (200, [("ok"%string, JBool true); ("text"%string, JStr t); ("source"%string, JStr src)]))
  | inl e => (h, error_response e)
  end.

End Greeting.

(** ** index.js: POST /agent/generate-text *)

Definition BANK_A1 : list jstr :=
  [js "Ala ma kota."; js "Miś je miodek."; js "Piłka leży na trawie.";
   js "Pies biegnie do domu."; js "Słońce świeci jasno."].
Definition BANK_A2 : list jstr :=
  [js "W ogrodzie rosną kolorowe kwiaty."; js "Kasia czyta ciekawą książkę o zwierzętach.";
   js "Na spacerze spotkaliśmy wesołego psa."; js "Dziś po południu pojedziemy na rowerach."].
Definition BANK_B1 : list jstr :=
  [js "Choć padał deszcz, wybraliśmy się na długi spacer.";
   js "Lubię zagadki, bo rozwijają wyobraźnię i spostrzegawczość.";
   js "Z zachwytem obserwowałem, jak motyl siada na liściu.";
   js "Po kolacji wspólnie ułożyliśmy plan jutrzejszej wycieczki."].

(** [toUpperCase] on the Basic Latin letters, enough to compare with
    [B1] and [A2]. *)
Definition ascii_upper (s : jstr) : jstr :=
  map (fun c => if (97 <=? c) && (c <=? 122) then c - 32 else c) s.

Definition bankByLevel (level : jstr) : list jstr :=
  let L := ascii_upper level in
  if decide (L = js "B1") then BANK_B1
  else if decide (L = js "A2") then BANK_A2
  else BANK_A1.

(** [pick(arr)]; [rnd] is the index [Math.floor(Math.random()*arr.length)]. *)
Definition pick (arr : list jstr) (rnd : nat) : jstr :=
  default [] (arr !! (rnd mod length arr)%nat).

(** the class of [/^["'„”]+|["'„”]+$/g] *)
Definition is_outer_quote (c : Z) : bool := (c =? 34) || (c =? 39) || (c =? 8222) || (c =? 8221).

Definition strip_outer_quotes (s : jstr) : jstr :=
  reverse (drop_while is_outer_quote (reverse (drop_while is_outer_quote s))).

Definition generate_text_endpoint (env : Env) (language level : jstr) (rnd : nat)
    (groq openai : call) : response :=
  if MOCK_TEXT env then
    (200, [("ok"%string, JBool true); ("text"%string, JStr (pick (bankByLevel level) rnd));
           ("level"%string, JStr level); ("language"%string, JStr language);
           ("source"%string, JStr (js "mock"))])
  else
    let winner := race env groq openai in
    match result winner with
    | Rejected e => error_response e
    | Fulfilled w =>
        let t := js_trim (strip_outer_quotes (text w)) in
        if decide (t = []) then error_response (ErrorMsg (js "EMPTY_GENERATION"))
        else (200, [("ok"%string, JBool true); ("text"%string, JStr t); ("level"%string, JStr level);
                    ("language"%string, JStr language); ("source"%string, JStr (provider w))])
    end.

(** ** part_001: accuracy of POST /asr *)

(** [s.replace(/[^...]+/gu, ' ')]: each maximal run of characters satisfying
    [p] becomes one space. *)
Fixpoint replace_runs (p : Z -> bool) (in_run : bool) (s : jstr) : jstr :=
  match s with
  | [] => []
  | c :: r =>
      if p c then (if in_run then replace_runs p true r else 32 :: replace_runs p true r)
      else c :: replace_runs p false r
  end.

(** [Math.round], applied to the exact value of a number. *)
Definition js_round (q : Q) : Z := Qfloor (q + (1 # 2))%Q.

(** Binary64 arithmetic: [dbl q] is the double nearest to the non-negative
    rational [q], ties to even. [q] is scaled by [2^-k] so that its integer
    part has 53 bits, rounded to an integer and scaled back. The exponent
    range is not bounded; the quotients rounded here lie in
    [[2^-1022, 100]] unless the token sets have more than 2^1021 elements. *)
Definition Qpow2 (e : Z) : Q := Qpower 2 e.

(** The [e] with [2^e <= q < 2^(e+1)], for [q > 0]. *)
Definition Qlog2 (q : Q) : Z :=
  let e0 := (Z.log2 (Qnum q) - Z.log2 (Zpos (Qden q)) - 1)%Z in
  if Qle_bool (Qpow2 (e0 + 1)) q then (e0 + 1)%Z else e0.

Definition round_half_even (r : Q) : Z :=
  let f := Qfloor r in
  let d := (r - inject_Z f)%Q in
  if Qltb d (1 # 2) then f
  else if Qltb (1 # 2) d then (f + 1)%Z
  else if Z.even f then f else (f + 1)%Z.

Definition dbl (q : Q) : Q :=
  let q := Qred q in
  if Qle_bool q 0 then 0%Q
  else
    let k := (Qlog2 q - 52)%Z in
    (inject_Z (round_half_even (q * Qpow2 (- k))) * Qpow2 k)%Q.

(** The relative rounding error of binary64, [2^-53]. *)
Definition eps53 : Q := 1 # 9007199254740992.

Section Asr.

Variable is_letter_mark : Z -> bool.

(** [norm(s)] of the handler *)
Definition asr_norm (s : jstr) : jstr :=
  js_trim (collapse_ws
    (replace_runs (fun c => negb (is_letter_mark c || is_digit c || is_space c)) false
       (toLowerCase s))).

(** [new Set(norm(s).split(' ').filter(Boolean))] *)
Definition asr_tokens (s : jstr) : list jstr := js_set (filter_nonempty (split_on 32 (asr_norm s))).

Definition jacc (a b : jstr) : Z :=
  let A := asr_tokens a in
  let B := asr_tokens b in
  if decide (length A = 0%nat ∧ length B = 0%nat) then 100
  else
    let inter := inter_count A B in
    (* the quotient and the product by 100 are each rounded to a double *)
    js_round (dbl (dbl (inject_Z (Z.of_nat inter)
                        / inject_Z (Z.of_nat (length A) + Z.of_nat (length B) - Z.of_nat inter)) * 100)).

(** [const { expectedText = '' } = req.body || {}] ... [expectedText ? jacc(recognizedText, expectedText) : 0] *)
Definition asr_accuracy (expectedText : option jstr) (recognizedText : jstr) : Z :=
  let e := default [] expectedText in
  if decide (e = []) then 0 else jacc recognizedText e.

(** The [accuracy] field of the JSON sent by POST /asr once a transcript is
    available; in mock mode the handler answers with a canned object whose
    accuracy is 87. *)
Definition asr_response_accuracy (env : Env) (expectedText : option jstr) (recognizedText : jstr) : Z :=
  if MOCK_ASR env then 87 else asr_accuracy expectedText recognizedText.

End Asr.

(** ** The server as a state machine over [recentGreetings] *)

(** The requests whose handlers are modelled; the other handlers (ASR, OCR,
    health, root) never reference [recentGreetings]. *)
Inductive request :=
| GreetingReq (name : jstr) (age : option Z) (groq openai : call)
| TextReq (language level : jstr) (rnd : nat) (groq openai : call).

Definition server_step (is_letter_mark : Z -> bool) (env : Env) (h : history_map) (req : request)
  : history_map * response :=
  match req with
  | GreetingReq name age g o => generate_greeting_endpoint is_letter_mark env h name age g o
  | TextReq lang lvl rnd g o => (h, generate_text_endpoint env lang lvl rnd g o)
  end.

Fixpoint run_server (is_letter_mark : Z -> bool) (env : Env) (h : history_map) (reqs : list request)
  : history_map :=
  match reqs with
  | [] => h
  | r :: rs => run_server is_letter_mark env (server_step is_letter_mark env h r).1 rs
  end.

(** A concrete instance of [\p{L}] or [\p{M}] for the Latin script: ASCII
    and Latin-1 letters, Latin Extended-A and the combining diacritical marks.
    Used only to run examples. *)
Definition latin_letter_mark (c : Z) : bool :=
  ((65 <=? c) && (c <=? 90)) || ((97 <=? c) && (c <=? 122)) || (c =? 170) || (c =? 181)
  || (c =? 186) || ((192 <=? c) && (c <=? 383) && negb (c =? 215) && negb (c =? 247))
  || ((768 <=? c) && (c <=? 879)).

(** Deadline predicates on one racer. *)
Definition deadline_timer (env : Env) : nat := node_delay (DEADLINE_MS env).

Definition fulfils_before (T : nat) (r : option settled) : bool :=
  match r with Some {| at_ms := t; result := Fulfilled _ |} => (t <? T)%nat | _ => false end.

Definition rejects_before (T : nat) (r : option settled) : bool :=
  match r with Some {| at_ms := t; result := Rejected _ |} => (t <? T)%nat | _ => false end.

(** Emoji counted by [tightenMotivation]'s [EMOJI_RE]. *)
Fixpoint count_emoji (s : jstr) : nat :=
  match s with
  | [] => 0
  | c :: r => (if is_emoji c then 1 else 0) + count_emoji r
  end.

(** The two error responses of the generation endpoints. *)
Definition deadline_response : response :=
  (504, [("ok"%string, JBool false); ("error"%string, JStr (js "DEADLINE_EXCEEDED"));
         ("timed_out"%string, JBool true)]).

Definition aggregate_response : response :=
  (502, [("ok"%string, JBool false); ("error"%string, JStr (js "All promises were rejected"))]).

(** ** index.js: trimUserContent *)

Definition low_surrogate (c : Z) : Z := 0xDC00 + (c - 0x10000) mod 1024.

(** The UTF-16 code units of a string. *)
Definition utf16_units (s : jstr) : list Z :=
  s ≫= (fun c => if 65536 <=? c then [high_surrogate c; low_surrogate c] else [c]).

(** [u.slice(start)] on code units. *)
Definition js_slice_from (start : Z) (u : list Z) : list Z :=
  let len := Z.of_nat (length u) in
  let from := if start <? 0 then Z.max (len + start) 0 else Z.min start len in
  drop (Z.to_nat from) u.

(** [trimUserContent(s, limit)]: [String(s || '').replace(/\s+/g, ' ').trim()],
    then [compact.length > limit ? compact.slice(-limit) : compact]; the
    result is given as UTF-16 code units. *)
Definition trimUserContent (s : jstr) (limit : Z) : list Z :=
  let compact := utf16_units (js_trim (collapse_ws s)) in
  if Z.of_nat (length compact) >? limit then js_slice_from (- limit) compact else compact.

(** ** part_001: rubricByAccuracy *)

Definition RUBRIC_95 : jstr :=
  js "wynik świetny; podkreśl perfekcję i zaproponuj trudniejsze słowo przy następnej stronie".
Definition RUBRIC_80 : jstr :=
  js "wynik bardzo dobry; pochwal płynność i zaproponuj jedną mikro-radę (np. dokładniej końcówki)".
Definition RUBRIC_60 : jstr :=
  js "wynik dobry; pochwal staranie i podaj jedną prostą wskazówkę (np. wolniej, sylabizuj trudniejsze słowa)".
Definition RUBRIC_LOW : jstr :=
  js "wynik na rozgrzewkę; skup się na zachęcie i jednej mini-radzie (np. przeczytaj zdanie jeszcze raz spokojnie)".

(** [rubricByAccuracy(acc)] for a numeric [acc]; [None] stands for a value
    that [acc || 0] turns into 0 ([undefined], [null], [NaN]). *)
Definition rubricByAccuracy (acc : option Q) : jstr :=
  let a := match acc with Some q => q | None => 0%Q end in
  let s := Z.max 0 (Z.min 100 (js_round a)) in
  if 95 <=? s then RUBRIC_95
  else if 80 <=? s then RUBRIC_80
  else if 60 <=? s then RUBRIC_60
  else RUBRIC_LOW.

(** ** part_001: generateMotivation and POST /agent/motivate *)

(** [generateMotivation]: the race, then [String(winner.text || '').trim()],
    the removal of surrounding quotes, [trim] and [tightenMotivation(out, 160)];
    an empty result throws [EMPTY_MOTIVATION]. The prompt does not change
    what the race returns for given provider replies. *)
Definition generateMotivation (env : Env) (groq openai : call) : js_error + (jstr * jstr) :=
  let winner := race env groq openai in
  match result winner with
  | Rejected e => inl e
  | Fulfilled w =>
      let out := js_trim (text w) in
      let out := js_trim (strip_outer_quotes out) in
      let out := tightenMotivation out 160 in
      if decide (out = []) then inl (ErrorMsg (js "EMPTY_MOTIVATION"))
      else inr (out, default (js "unknown") (js_or (Some (provider w)) None))
  end.

Definition MOTIVATE_FALLBACK : jstr :=
  js "Świetna próba! Z każdą stroną będzie coraz lepiej — spróbujmy jeszcze raz! 💪".

(** The route handler, with its second [tightenMotivation(rawMsg, 160)]. *)
Definition motivate_endpoint (env : Env) (groq openai : call) : response :=
  match generateMotivation env groq openai with
  | inr (rawMsg, src) =>
      (200, [("ok"%string, JBool true); ("text"%string, JStr (tightenMotivation rawMsg 160));
             ("source"%string, JStr src)])
  | inl e =>
      if decide (error_string e = js "DEADLINE_EXCEEDED")
      then (504, [("ok"%string, JBool false); ("error"%string, JStr (js "DEADLINE_EXCEEDED"));
                  ("timed_out"%string, JBool true)])
      else (502, [("ok"%string, JBool false); ("error"%string, JStr (error_string e));
                  ("fallback"%string, JStr MOTIVATE_FALLBACK)])
  end.

(** ** index.js: the OCR limiter [acquire] / [release] *)

(** An OCR request that reached [await acquire()]: still looping in
    [acquire], holding a slot, or past [release()] in its [finally]. *)
Inductive ocr_task := Waiting | Holding | Finished.

#[global] Instance ocr_task_eq_dec : EqDecision ocr_task.
Proof. solve_decision. Defined.

Record limiter := { inflight : Z; ocr_tasks : list ocr_task }.

(** The points where the single JavaScript thread runs limiter code: a new
    request calls [acquire], a waiting request evaluates its [while] test
    (first call or after [sleep(40)]), a holding request runs [release]. *)
Inductive limiter_event := Spawn | TryAcquire (i : nat) | Release (i : nat).

(** [inflight >= MAX_CONCURRENCY]; [None] is a [NaN] limit. *)
Definition js_ge (x : Z) (m : option Q) : bool :=
  match m with Some q => Qle_bool q (inject_Z x) | None => false end.

Definition limiter_step (MAX_CONCURRENCY : option Q) (st : limiter) (ev : limiter_event) : limiter :=
  match ev with
  | Spawn => {| inflight := inflight st; ocr_tasks := ocr_tasks st ++ [Waiting] |}
  | TryAcquire i =>
      match ocr_tasks st !! i with
      | Some Waiting =>
          if js_ge (inflight st) MAX_CONCURRENCY then st
          else {| inflight := inflight st + 1; ocr_tasks := <[i := Holding]> (ocr_tasks st) |}
      | _ => st
      end
  | Release i =>
      match ocr_tasks st !! i with
      | Some Holding =>
          {| inflight := Z.max 0 (inflight st - 1); ocr_tasks := <[i := Finished]> (ocr_tasks st) |}
      | _ => st
      end
  end.

Definition limiter_run (MAX_CONCURRENCY : option Q) (st : limiter) (evs : list limiter_event) : limiter :=
  foldl (limiter_step MAX_CONCURRENCY) st evs.

Definition holding_count (st : limiter) : nat :=
  length (filter (fun t => t = Holding) (ocr_tasks st)).

(** ** Readings of the specification *)

(** Deduplication keeping first-seen order, read position by position: the
    element at index [i] is kept iff it does not occur among the first [i]. *)
Definition first_seen (l : list jstr) : list jstr :=
  omap id (imap (fun i x => if decide (x ∈ take i l) then None else Some x) l).

(** The list parser as the specification describes it: split on line breaks,
    trim, strip list markers, drop empty lines, deduplicate, keep 5 to 16
    words, cap at 20. *)
Definition spec_parseList (text : jstr) : list jstr :=
  let items := filter_nonempty (map strip_marker (filter_nonempty (map js_trim (split_lines text)))) in
  take 20 (filter (fun s => (5 <= word_count s)%nat ∧ (word_count s <= 16)%nat) (first_seen items)).

(** The set of normalised tokens of a transcript. *)
Definition token_set (is_letter_mark : Z -> bool) (s : jstr) : gset jstr :=
  list_to_set (asr_tokens is_letter_mark s).

(** Jaccard index of two token sets, [|A ∩ B| / |A ∪ B|]; 1 for two empty
    sets. *)
Definition jaccard_index (A B : gset jstr) : Q :=
  if decide (A ∪ B = ∅) then 1%Q
  else inject_Z (Z.of_nat (size (A ∩ B))) / inject_Z (Z.of_nat (size (A ∪ B))).

(** Every history list holds at most 20 greetings. *)
Definition hist_bounded (h : history_map) : Prop :=
  map_Forall (fun _ l => (length l <= 20)%nat) h.

(** Maximal similarity of a candidate to the history ([maxSim]). *)
Definition novelty_score (c : jstr) (h : list jstr) : Q := js_max0 (map (jaccard c) h).

(** No whitespace at either end of a string. *)
Definition no_edge_space (s : jstr) : Prop :=
  (∀ c, head s = Some c -> is_space c = false) ∧ (∀ c, last s = Some c -> is_space c = false).

(** The earliest fulfilment of a list of racers, ties to the racer pushed
    first; [None] when no racer fulfils. *)
Definition earliest_spec (rs : list (option settled)) (res : option (nat * ProviderResult)) : Prop :=
  match res with
  | None => ∀ r, r ∈ rs -> fulfilled_at r = None
  | Some (t, w) =>
      ∃ i r, rs !! i = Some r ∧ fulfilled_at r = Some (t, w)
        ∧ ∀ j r' t' w', rs !! j = Some r' -> fulfilled_at r' = Some (t', w') ->
             (t <= t')%nat ∧ ((j < i)%nat -> (t < t')%nat)
  end.

(** The invariant of the OCR limiter for a numeric limit [m]. *)
Definition limiter_inv (m : Z) (st : limiter) : Prop :=
  inflight st = Z.of_nat (holding_count st) ∧ Z.of_nat (holding_count st) <= Z.max m 0.

(** Configurations and provider replies used in the examples below. *)
Definition env_groq : Env :=
  {| GROQ_API_KEY_set := true; OPENAI_API_KEY_set := false; MOCK_TEXT := false;
     MOCK_ASR := false; DEADLINE_MS := 1200 |}.
Definition env_mock : Env :=
  {| GROQ_API_KEY_set := false; OPENAI_API_KEY_set := false; MOCK_TEXT := true;
     MOCK_ASR := false; DEADLINE_MS := 1200 |}.
Definition env_none : Env :=
  {| GROQ_API_KEY_set := false; OPENAI_API_KEY_set := false; MOCK_TEXT := false;
     MOCK_ASR := false; DEADLINE_MS := 1200 |}.

Definition text_call : call := Some (10%nat, Answer (js "„Ala ma kota.”")).
Definition greeting_call : call :=
  Some (10%nat, Answer (js "Dzisiaj przeczytamy razem bardzo ciekawą historię o smoku.")).
Definition motivation_call : call := Some (10%nat, Answer (js "„Brawo! Czytasz coraz płynniej 😀😀.”")).
Definition motivation_winner : ProviderResult :=
  {| provider := js "groq"; text := js "„Brawo! Czytasz coraz płynniej 😀😀.”"; latency_ms := 10 |}.

(** ** Examples *)

Example parse_test :
  parseList (js "- Ala czyta książkę codziennie wieczorem." ++ [10] ++ js "- Krótko.")
  = [js "Ala czyta książkę codziennie wieczorem."].
Proof. vm_compute. reflexivity. Qed.

Example sanitize_test2 (isLM : Z -> bool) :
  sanitizeNoName isLM (js "Zosia") (js "Dziś Zosia, otwórzmy książkę!")
  = js "Dziś otwórzmy książkę!".
Proof. vm_compute. reflexivity. Qed.

Example sanitize_test3 (isLM : Z -> bool) :
  sanitizeNoName isLM (js "Zosia") (js "Hej") = [].
Proof. vm_compute. reflexivity. Qed.

Example tighten_test1 :
  tightenMotivation (js "Super! Czytasz pięknie 😀😀. Dalej tak 😀!") 160
  = js "Super! Czytasz pięknie 😀.".
Proof. vm_compute. reflexivity. Qed.

Example tighten_test2 :
  tightenMotivation (js "Brawo «kot» czyta") 160 = js "Brawo czyta.".
Proof. vm_compute. reflexivity. Qed.

Example race_test :
  race {| GROQ_API_KEY_set := true; OPENAI_API_KEY_set := true; MOCK_TEXT := false;
          MOCK_ASR := false; DEADLINE_MS := 1200 |}
       (Some (50%nat, Answer (js "A"))) (Some (5000%nat, Answer (js "B")))
  = {| at_ms := 50; result := Fulfilled {| provider := js "groq"; text := js "A"; latency_ms := 50 |} |}.
Proof. vm_compute. reflexivity. Qed.

(** ** Lemmas on the race *)

Lemma node_delay_pos (ms : nat) : (1 <= node_delay ms)%nat.
Proof.
  unfold node_delay. destruct ((1 <=? ms)%nat) eqn:E; simpl; [| lia].
  apply Nat.leb_le in E. destruct (Z.of_nat ms <=? TIMEOUT_MAX)%Z; lia.
Qed.

Lemma first_fulfilled_in (rs : list (option settled)) t v :
  first_fulfilled rs = Some (t, v) -> ∃ r, r ∈ rs ∧ fulfilled_at r = Some (t, v).
Proof.
  unfold first_fulfilled.
  cut (∀ acc, foldl (fun acc r => earliest acc (fulfilled_at r)) acc rs = Some (t, v) ->
              acc = Some (t, v) ∨ ∃ r, r ∈ rs ∧ fulfilled_at r = Some (t, v)).
  { intros H Hf. destruct (H None Hf) as [Hn | Hr]; [discriminate | exact Hr]. }
  induction rs as [| r rs IH]; intros acc Hf; simpl in Hf.
  - left. exact Hf.
  - destruct (IH _ Hf) as [He | [r' [Hin Hr']]].
    + unfold earliest in He.
      destruct acc as [[ta va] |], (fulfilled_at r) as [[tb vb] |] eqn:Hfr;
        try (destruct (tb <? ta)%nat); simplify_eq;
        first [ left; reflexivity | right; exists r; split; [left | exact Hfr] ].
    + right. exists r'. split; [right; exact Hin | exact Hr'].
Qed.

Lemma all_rejected_spec (rs : list (option settled)) t es :
  all_rejected rs = Some (t, es) ->
  ∀ r, r ∈ rs -> ∃ t' e, r = Some {| at_ms := t'; result := Rejected e |} ∧ (t' <= t)%nat.
Proof.
  revert t es. induction rs as [| r rs IH]; intros t es H x Hx.
  - inversion Hx.
  - simpl in H. destruct r as [[t0 [v | e0]] |]; try discriminate.
    destruct (all_rejected rs) as [[tm es'] |] eqn:Hrest; try discriminate.
    injection H as <- <-.
    apply elem_of_cons in Hx as [-> | Hx].
    + exists t0, e0. split; [reflexivity | lia].
    + destruct (IH _ _ eq_refl x Hx) as (t' & e & -> & Hle). exists t', e. split; [reflexivity | lia].
Qed.

Lemma all_rejected_before (rs : list (option settled)) T :
  (1 <= T)%nat -> Forall (fun r => rejects_before T r = true) rs ->
  ∃ t es, all_rejected rs = Some (t, es) ∧ (t < T)%nat.
Proof.
  intros HT. induction 1 as [| r rs Hr _ IH].
  - exists 0%nat, []. split; [reflexivity | lia].
  - destruct IH as (t & es & Hall & Hlt).
    destruct r as [[t0 [v | e0]] |]; simpl in Hr; try discriminate.
    apply Nat.ltb_lt in Hr.
    exists (Nat.max t0 t), (e0 :: es). simpl. rewrite Hall. split; [reflexivity | lia].
Qed.

Lemma first_fulfilled_none (rs : list (option settled)) T :
  Forall (fun r => rejects_before T r = true) rs -> first_fulfilled rs = None.
Proof.
  intros Hall. unfold first_fulfilled.
  cut (∀ acc, acc = None -> foldl (fun acc r => earliest acc (fulfilled_at r)) acc rs = None).
  { intros H. apply H. reflexivity. }
  induction Hall as [| r rs Hr _ IH]; intros acc ->; simpl; [reflexivity |].
  apply IH. destruct r as [[t0 [v | e0]] |]; simpl in Hr; try discriminate; reflexivity.
Qed.

Lemma race_deadline_core (env : Env) (g o : call) :
  Forall (fun r => fulfils_before (deadline_timer env) r = false) (racers env g o) ->
  Exists (fun r => rejects_before (deadline_timer env) r = false) (racers env g o) ->
  result (race env g o) = Rejected DEADLINE_EXCEEDED.
Proof.
  intros Hnf Hpend. unfold race, withDeadline, promise_any.
  unfold deadline_timer in *.
  set (rs := racers env g o) in *. set (T := node_delay (DEADLINE_MS env)) in *.
  destruct (first_fulfilled rs) as [[t v] |] eqn:Hf.
  - apply first_fulfilled_in in Hf as (r & Hin & Hr).
    rewrite Forall_forall in Hnf. specialize (Hnf r Hin).
    destruct r as [[t0 [v0 | e0]] |]; simpl in Hr, Hnf; try discriminate.
    injection Hr as -> ->. simpl. rewrite Hnf. reflexivity.
  - destruct (all_rejected rs) as [[t es] |] eqn:Ha; [| reflexivity].
    apply Exists_exists in Hpend as (r & Hin & Hr).
    destruct (all_rejected_spec rs t es Ha r Hin) as (t' & e & -> & Hle).
    simpl in Hr. apply Nat.ltb_ge in Hr. simpl.
    replace ((t <? T)%nat) with false; [reflexivity |].
    symmetry. apply Nat.ltb_ge. lia.
Qed.

Lemma race_all_rejected_core (env : Env) (g o : call) :
  Forall (fun r => rejects_before (deadline_timer env) r = true) (racers env g o) ->
  ∃ es, result (race env g o) = Rejected (AggregateError es).
Proof.
  intros Hall. unfold race, withDeadline, promise_any.
  rewrite (first_fulfilled_none _ _ Hall).
  destruct (all_rejected_before (racers env g o) (deadline_timer env)
              (node_delay_pos _) Hall) as (t & es & -> & Hlt).
  unfold deadline_timer in Hlt. exists es. simpl.
  replace ((t <? node_delay (DEADLINE_MS env))%nat) with true; [reflexivity |].
  symmetry. apply Nat.ltb_lt. exact Hlt.
Qed.

Lemma greeting_endpoint_race_error (isLM : Z -> bool) env h name age g o e :
  result (race env g o) = Rejected e ->
  generate_greeting_endpoint isLM env h name age g o = (h, error_response e).
Proof.
  intros He. unfold generate_greeting_endpoint, generateGreetingV2. cbv zeta.
  rewrite He. reflexivity.
Qed.

Lemma text_endpoint_race_error env lang lvl rnd g o e :
  MOCK_TEXT env = false -> result (race env g o) = Rejected e ->
  generate_text_endpoint env lang lvl rnd g o = error_response e.
Proof.
  intros Hm He. unfold generate_text_endpoint. rewrite Hm. cbv zeta. rewrite He. reflexivity.
Qed.

(** C1 (the code does not meet the claim). With neither provider configured
    the race fails at once, before any deadline, but with the generic
    [AggregateError] of [Promise.any([])]: both endpoints answer 502 with
    [All promises were rejected], the same body as when every configured
    provider fails, and no distinct no-provider condition exists. *)
Theorem no_provider_race_aggregate_error (isLM : Z -> bool) (mock_asr : bool) (ms : nat)
    (h : history_map) (name : jstr) (age : option Z) (g o : call)
    (lang lvl : jstr) (rnd : nat) :
  let env := {| GROQ_API_KEY_set := false; OPENAI_API_KEY_set := false; MOCK_TEXT := false;
                MOCK_ASR := mock_asr; DEADLINE_MS := ms |} in
  race env g o = {| at_ms := 0; result := Rejected (AggregateError []) |}
  ∧ generate_greeting_endpoint isLM env h name age g o = (h, aggregate_response)
  ∧ generate_text_endpoint env lang lvl rnd g o = aggregate_response
  ∧ generate_greeting_endpoint isLM
      {| GROQ_API_KEY_set := true; OPENAI_API_KEY_set := false; MOCK_TEXT := false;
         MOCK_ASR := mock_asr; DEADLINE_MS := 1200 |} h name age
      (Some (5%nat, Fails (ErrorMsg (js "GROQ_HTTP_500")))) o
    = (h, aggregate_response).
Proof.
  intros env.
  assert (Hr : race env g o = {| at_ms := 0; result := Rejected (AggregateError []) |}).
  { unfold race, withDeadline, promise_any. simpl.
    replace ((0 <? node_delay ms)%nat) with true; [reflexivity |].
    symmetry. apply Nat.ltb_lt. pose proof (node_delay_pos ms). lia. }
  split; [exact Hr |]. split; [| split].
  - rewrite (greeting_endpoint_race_error isLM env h name age g o (AggregateError [])).
    + reflexivity.
    + rewrite Hr. reflexivity.
  - rewrite (text_endpoint_race_error env lang lvl rnd g o (AggregateError [])); [reflexivity | reflexivity |].
    rewrite Hr. reflexivity.
  - reflexivity.
Qed.

(** C2 (counterexample). A single configured provider failing after 5 ms
    settles the race before the 1200 ms deadline with no winner, yet the
    race fails with the aggregate error, not [DEADLINE_EXCEEDED], and the
    greeting endpoint answers 502, not 504. *)
Lemma single_failure_is_not_deadline :
  let env := {| GROQ_API_KEY_set := true; OPENAI_API_KEY_set := false; MOCK_TEXT := false;
                MOCK_ASR := false; DEADLINE_MS := 1200 |} in
  let g := Some (5%nat, Fails (ErrorMsg (js "GROQ_HTTP_500"))) in
  Forall (fun r => fulfils_before (deadline_timer env) r = false) (racers env g None)
  ∧ result (race env g None) ≠ Rejected DEADLINE_EXCEEDED
  ∧ generate_greeting_endpoint latin_letter_mark env ∅ [] None g None = (∅, aggregate_response)
  ∧ generate_text_endpoint env (js "pl") (js "A1") 0 g None = aggregate_response.
Proof.
  split; [| split; [| split]].
  - repeat constructor.
  - vm_compute. discriminate.
  - reflexivity.
  - reflexivity.
Qed.

(** C2 (amended). When no participant fulfils before the deadline timer
    fires and some participant has not rejected by then, the race fails with
    [DEADLINE_EXCEEDED] and both endpoints (text generation outside mock
    mode) answer 504 with error [DEADLINE_EXCEEDED]; when instead every
    participant, if any, has rejected before the deadline, the race fails
    early with the aggregate error and the endpoints answer 502. *)
Theorem race_no_winner_outcome (isLM : Z -> bool) (env : Env) (h : history_map)
    (name : jstr) (age : option Z) (g o : call) (lang lvl : jstr) (rnd : nat) :
  Forall (fun r => fulfils_before (deadline_timer env) r = false) (racers env g o) ->
  (Exists (fun r => rejects_before (deadline_timer env) r = false) (racers env g o) ->
     result (race env g o) = Rejected DEADLINE_EXCEEDED
     ∧ generate_greeting_endpoint isLM env h name age g o = (h, deadline_response)
     ∧ (MOCK_TEXT env = false -> generate_text_endpoint env lang lvl rnd g o = deadline_response))
  ∧ (Forall (fun r => rejects_before (deadline_timer env) r = true) (racers env g o) ->
     (∃ es, result (race env g o) = Rejected (AggregateError es))
     ∧ generate_greeting_endpoint isLM env h name age g o = (h, aggregate_response)
     ∧ (MOCK_TEXT env = false -> generate_text_endpoint env lang lvl rnd g o = aggregate_response)).
Proof.
  intros Hnf. split.
  - intros Hpend. pose proof (race_deadline_core env g o Hnf Hpend) as Hd.
    split; [exact Hd | split].
    + rewrite (greeting_endpoint_race_error _ _ _ _ _ _ _ _ Hd). reflexivity.
    + intros Hm. rewrite (text_endpoint_race_error _ _ _ _ _ _ _ Hm Hd). reflexivity.
  - intros Hall. destruct (race_all_rejected_core env g o Hall) as [es Hes].
    split; [exists es; exact Hes | split].
    + rewrite (greeting_endpoint_race_error _ _ _ _ _ _ _ _ Hes). reflexivity.
    + intros Hm. rewrite (text_endpoint_race_error _ _ _ _ _ _ _ Hm Hes). reflexivity.
Qed.

Lemma race_no_winner_outcome_witness :
  let env := {| GROQ_API_KEY_set := true; OPENAI_API_KEY_set := true; MOCK_TEXT := false;
                MOCK_ASR := false; DEADLINE_MS := 1200 |} in
  let g := Some (5000%nat, Answer (js "A")) in
  let o := Some (30%nat, Fails (ErrorMsg (js "OPENAI_HTTP_500"))) in
  generate_greeting_endpoint latin_letter_mark env ∅ [] None g o = (∅, deadline_response).
Proof.
  intros env g o.
  apply (proj1 (race_no_winner_outcome latin_letter_mark env ∅ [] None g o (js "pl") (js "A1") 0
           ltac:(vm_compute; repeat constructor))
           ltac:(vm_compute; apply Exists_cons_hd; reflexivity)).
Defined.

(** ** Lemmas on tightenMotivation *)

Lemma count_emoji_app (a b : jstr) : count_emoji (a ++ b) = (count_emoji a + count_emoji b)%nat.
Proof. induction a as [| c a IH]; simpl; [reflexivity | rewrite IH; lia]. Qed.

Lemma count_emoji_reverse (s : jstr) : count_emoji (reverse s) = count_emoji s.
Proof.
  induction s as [| c s IH]; [reflexivity |].
  rewrite reverse_cons, count_emoji_app, IH. simpl. lia.
Qed.

Lemma count_emoji_drop_while (p : Z -> bool) (s : jstr) :
  (count_emoji (drop_while p s) <= count_emoji s)%nat.
Proof. induction s as [| c s IH]; simpl; [lia |]. destruct (p c); simpl; lia. Qed.

Lemma count_emoji_trim (s : jstr) : (count_emoji (js_trim s) <= count_emoji s)%nat.
Proof.
  unfold js_trim, js_trim_start.
  rewrite count_emoji_reverse.
  etransitivity; [apply count_emoji_drop_while |].
  rewrite count_emoji_reverse. apply count_emoji_drop_while.
Qed.

Lemma count_emoji_strip_last_word (s : jstr) :
  (count_emoji (strip_last_word s) <= count_emoji s)%nat.
Proof.
  unfold strip_last_word.
  destruct (drop_while _ (reverse s)) as [| c r] eqn:E; [lia |].
  rewrite count_emoji_reverse, <- E.
  etransitivity; [apply count_emoji_drop_while |].
  etransitivity; [apply count_emoji_drop_while |].
  rewrite count_emoji_reverse. lia.
Qed.

Lemma keep_first_emoji_seen (s : jstr) : count_emoji (keep_first_emoji true s) = 0%nat.
Proof.
  induction s as [| c s IH]; simpl; [reflexivity |].
  destruct (is_emoji c) eqn:E; simpl; [exact IH | rewrite E; exact IH].
Qed.

Lemma keep_first_emoji_at_most_one (s : jstr) : (count_emoji (keep_first_emoji false s) <= 1)%nat.
Proof.
  induction s as [| c s IH]; simpl; [lia |].
  destruct (is_emoji c) eqn:E; simpl; rewrite ?E; [rewrite keep_first_emoji_seen |]; lia.
Qed.

Lemma existsb_ranges_outside (ranges : list (Z * Z)) (lo0 hi0 x : Z) :
  forallb (fun '(lo, hi) => (hi <? lo0) || (hi0 <? lo)) ranges = true ->
  lo0 <= x <= hi0 ->
  existsb (fun '(lo, hi) => (lo <=? x) && (x <=? hi)) ranges = false.
Proof.
  intros Hall Hx. induction ranges as [| [lo hi] rs IH]; simpl in *; [reflexivity |].
  apply andb_prop in Hall as [Hr Hall].
  rewrite (IH Hall), orb_false_r.
  apply orb_prop in Hr as [Hr | Hr]; apply Z.ltb_lt in Hr.
  - rewrite (proj2 (Z.leb_gt x hi)); [apply andb_false_r | lia].
  - rewrite (proj2 (Z.leb_gt lo x)); [reflexivity | lia].
Qed.

(** The code unit left by a cut surrogate pair is not an emoji. *)
Lemma high_surrogate_not_emoji (c : Z) : is_emoji (high_surrogate c) = false.
Proof.
  unfold high_surrogate.
  pose proof (Z.mod_pos_bound (Z.shiftr (c - 0x10000) 10) 1024 ltac:(lia)) as Hb.
  unfold is_emoji, Extended_Pictographic.
  rewrite (existsb_ranges_outside EXT_PICT_RANGES 0xD800 0xDBFF); [| reflexivity | lia].
  simpl. apply Z.eqb_neq. lia.
Qed.

Lemma count_emoji_slice_units (n : nat) (s : jstr) :
  (count_emoji (slice_units n s) <= count_emoji s)%nat.
Proof.
  revert s. induction n as [n IH] using lt_wf_ind. intros s.
  destruct n as [| n'], s as [| c r]; simpl; try lia.
  destruct (65536 <=? c).
  - destruct n' as [| n''].
    + simpl. rewrite high_surrogate_not_emoji. lia.
    + simpl. specialize (IH n'' ltac:(lia) r). destruct (is_emoji c); lia.
  - simpl. specialize (IH n' ltac:(lia) r). destruct (is_emoji c); lia.
Qed.

Lemma ends_terminal_app_period (s : jstr) : ends_terminal (s ++ [46]) = true.
Proof. unfold ends_terminal. rewrite last_snoc. reflexivity. Qed.

(** C3 (counterexample). The empty input is returned unchanged: the output
    does not end in sentence-terminal punctuation. *)
Lemma tighten_empty_not_terminal :
  tightenMotivation [] 160 = [] ∧ ends_terminal (tightenMotivation [] 160) = false.
Proof. split; reflexivity. Qed.

(** A single word longer than the cap is cut in the middle and the appended
    period takes the output to 161 units. *)
Example tighten_long_word : tightenMotivation (repeat 97 200) 160 = repeat 97 160 ++ [46].
Proof. vm_compute. reflexivity. Qed.

(** Removing the second emoji after the two-sentence cut can expose a third
    sentence boundary. *)
Example tighten_three_segments :
  split_sentences (tightenMotivation (js "X. 😀A.😀 B. C.") 160)
  = [js "X."; js "😀A."; js "B."].
Proof. vm_compute. reflexivity. Qed.

(** C3 (amended). The empty string is returned unchanged, whatever the
    cap. For every non-empty input the tightened text ends in
    sentence-terminal punctuation (a period is appended when missing) and
    keeps at most one character of the class [[\p{Extended_Pictographic}️]]. *)
Theorem tightenMotivation_terminal_one_emoji (s : jstr) (maxChars : nat) :
  tightenMotivation [] maxChars = []
  ∧ (s ≠ [] ->
     ends_terminal (tightenMotivation s maxChars) = true
     ∧ (count_emoji (tightenMotivation s maxChars) <= 1)%nat).
Proof.
  split; [reflexivity |].
  intros Hs. unfold tightenMotivation.
  destruct (decide (s = [])) as [E | _]; [contradiction |].
  cbv zeta.
  set (s5 := keep_first_emoji false _).
  assert (H5 : (count_emoji s5 <= 1)%nat) by apply keep_first_emoji_at_most_one.
  set (s6 := if decide (maxChars < utf16_len s5)%nat
             then js_trim (strip_last_word (slice_units maxChars s5)) else s5).
  assert (H6 : (count_emoji s6 <= 1)%nat).
  { unfold s6. destruct (decide _); [| exact H5].
    etransitivity; [apply count_emoji_trim |].
    etransitivity; [apply count_emoji_strip_last_word |].
    etransitivity; [apply count_emoji_slice_units | exact H5]. }
  destruct (ends_terminal s6) eqn:Et.
  - split; [exact Et | exact H6].
  - split; [apply ends_terminal_app_period |].
    rewrite count_emoji_app. change (count_emoji [46]) with 0%nat. lia.
Qed.

Lemma tightenMotivation_terminal_one_emoji_witness :
  ends_terminal (tightenMotivation (js "Super! Czytasz pięknie 😀😀. Dalej tak 😀!") 160) = true
  ∧ (count_emoji (tightenMotivation (js "Super! Czytasz pięknie 😀😀. Dalej tak 😀!") 160) <= 1)%nat.
Proof. apply (proj2 (tightenMotivation_terminal_one_emoji _ 160)). discriminate. Defined.

(** C4 (the code does not meet the claim). On the spec's own example the
    sanitizer returns its input unchanged: [\b] cannot hold after the
    non-ASCII final letter of [cześć] followed by a space, and the
    generated name forms ([Zosia], [Zosiau], [Zosiao], ...) do not contain
    the vocative [Zosiu]; this holds whatever the Unicode letter table. *)
Theorem sanitize_example_unchanged (isLM : Z -> bool) :
  sanitizeNoName isLM (js "Zosia") (js "Cześć Zosiu, otwórzmy książkę!")
    = js "Cześć Zosiu, otwórzmy książkę!"
  ∧ word_boundary (Some 263) [32] = false
  ∧ js "Zosiu" ∉ name_forms (js "Zosia").
Proof.
  split; [vm_compute; reflexivity | split; [reflexivity |]].
  vm_compute. intros H. repeat (apply elem_of_cons in H as [H | H]; [discriminate |]).
  inversion H.
Qed.

(** ** Lemmas on chooseMostNovel *)

Lemma foldl_keeps_or_takes {S : Type} (f : jstr * S -> jstr -> jstr * S) (L : list jstr) :
  (∀ st c, (f st c).1 = st.1 ∨ (f st c).1 = c) ->
  ∀ l acc, l ⊆ L -> (acc.1 = [] ∨ acc.1 ∈ L) -> ((foldl f acc l).1 = [] ∨ (foldl f acc l).1 ∈ L).
Proof.
  intros Hf l. induction l as [| c l IH]; intros acc Hsub Hacc; simpl; [exact Hacc |].
  apply IH; [intros x Hx; apply Hsub; right; exact Hx |].
  destruct (Hf acc c) as [-> | ->]; [exact Hacc |].
  right. apply Hsub. left.
Qed.

Lemma js_or_first_member (best c : jstr) (rest : list jstr) :
  (best = [] ∨ best ∈ c :: rest) ->
  default [] (js_or (js_or (Some best) (Some c)) (Some [])) ∈ c :: rest.
Proof.
  intros Hb. unfold js_or.
  destruct (decide (best = [])) as [-> | Hne].
  - destruct (decide (c = [])) as [-> |]; simpl; left.
  - destruct Hb as [| Hb]; [contradiction |].
    destruct (decide (best = [])); [contradiction | exact Hb].
Qed.

(** C5. For a non-empty candidate list the selected string is one of the
    candidates; with an absent or empty history it is the first candidate. *)
Theorem chooseMostNovel_member_first (cands : list jstr) (history : option (list jstr)) :
  (cands ≠ [] -> chooseMostNovel cands history ∈ cands)
  ∧ ((history = None ∨ history = Some []) -> chooseMostNovel cands history = hd [] cands).
Proof.
  split.
  - intros Hc. destruct cands as [| c rest]; [contradiction |].
    destruct history as [[| h0 hs] |];
      try (simpl; unfold js_or; destruct (decide (c = [])) as [-> |]; left).
    set (f := fun (st : jstr * Q) (c0 : jstr) =>
                let '(best, bestScore) := st in
                let maxSim := js_max0 (map (jaccard c0) (h0 :: hs)) in
                if Qltb maxSim bestScore then (c0, maxSim) else (best, bestScore)).
    assert (Hinv := foldl_keeps_or_takes f (c :: rest)
                      ltac:(intros [b q] c0; simpl; destruct (Qltb _ _); [right | left]; reflexivity)
                      (c :: rest) ([], 1%Q) ltac:(intros x Hx; exact Hx) ltac:(left; reflexivity)).
    change (chooseMostNovel (c :: rest) (Some (h0 :: hs))) with
      (let '(best, _) := foldl f ([], 1%Q) (c :: rest) in
       default [] (js_or (js_or (Some best) (Some c)) (Some []))).
    destruct (foldl f ([], 1%Q) (c :: rest)) as [best sc]. simpl in Hinv.
    apply js_or_first_member. exact Hinv.
  - intros [-> | ->]; destruct cands as [| c rest]; simpl; try reflexivity;
      unfold js_or; destruct (decide (c = [])) as [-> |]; reflexivity.
Qed.

Lemma chooseMostNovel_member_first_witness :
  chooseMostNovel [js "Ala czyta"; js "Ola pisze"] (Some [js "Ala czyta"]) ∈ [js "Ala czyta"; js "Ola pisze"]
  ∧ chooseMostNovel [js "Ala czyta"; js "Ola pisze"] None = js "Ala czyta".
Proof.
  split.
  - apply (proj1 (chooseMostNovel_member_first _ (Some [js "Ala czyta"]))). discriminate.
  - apply (proj2 (chooseMostNovel_member_first [js "Ala czyta"; js "Ola pisze"] None)).
    left. reflexivity.
Defined.

(** ** Lemmas on the token sets of [jaccard] *)

Lemma foldl_set_add_spec (l acc : list jstr) :
  NoDup acc ->
  NoDup (foldl set_add acc l) ∧ (∀ y, y ∈ foldl set_add acc l ↔ y ∈ acc ∨ y ∈ l).
Proof.
  revert acc. induction l as [| x l IH]; intros acc Hnd; simpl.
  - split; [exact Hnd |]. intros y. rewrite elem_of_nil. tauto.
  - assert (Hnd' : NoDup (set_add acc x)).
    { unfold set_add. destruct (decide (x ∈ acc)); [exact Hnd |].
      apply NoDup_app. split; [exact Hnd | split; [| apply NoDup_singleton]].
      intros y Hy Hy'. apply list_elem_of_singleton in Hy'. subst. contradiction. }
    destruct (IH (set_add acc x) Hnd') as [IH1 IH2]. split; [exact IH1 |].
    intros y. rewrite IH2, elem_of_cons. unfold set_add.
    destruct (decide (x ∈ acc)) as [Hx | Hx].
    + split; [tauto |]. intros [Hy | [-> | Hy]]; tauto.
    + rewrite elem_of_app, list_elem_of_singleton. tauto.
Qed.

Lemma js_set_NoDup (l : list jstr) : NoDup (js_set l).
Proof. apply (foldl_set_add_spec l [] NoDup_nil_2). Qed.

Lemma elem_of_js_set (l : list jstr) (y : jstr) : y ∈ js_set l ↔ y ∈ l.
Proof.
  unfold js_set. rewrite (proj2 (foldl_set_add_spec l [] NoDup_nil_2)), elem_of_nil. tauto.
Qed.

Lemma js_set_nil_iff (l : list jstr) : js_set l = [] ↔ l = [].
Proof.
  split.
  - intros H. destruct l as [| x l]; [reflexivity |].
    assert (Hx : x ∈ js_set (x :: l)) by (apply elem_of_js_set; left).
    rewrite H in Hx. inversion Hx.
  - intros ->. reflexivity.
Qed.

Lemma filter_keep_all {A} (P : A -> Prop) `{!∀ x, Decision (P x)} (l : list A) :
  (∀ x, x ∈ l -> P x) -> filter P l = l.
Proof.
  induction l as [| x l IH]; intros Hall; [reflexivity |].
  rewrite filter_cons_True by (apply Hall; left). f_equal. apply IH.
  intros y Hy. apply Hall. right. exact Hy.
Qed.

Lemma filter_keep_none {A} (P : A -> Prop) `{!∀ x, Decision (P x)} (l : list A) :
  (∀ x, x ∈ l -> ¬ P x) -> filter P l = [].
Proof.
  induction l as [| x l IH]; intros Hall; [reflexivity |].
  rewrite filter_cons_False by (apply Hall; left). apply IH.
  intros y Hy. apply Hall. right. exact Hy.
Qed.

Lemma inter_count_comm (A B : list jstr) :
  NoDup A -> NoDup B -> inter_count A B = inter_count B A.
Proof.
  intros HA HB. unfold inter_count. apply Permutation_length.
  apply NoDup_Permutation; try (apply NoDup_filter; assumption).
  intros x. rewrite !list_elem_of_filter. tauto.
Qed.

Lemma inter_count_self (A : list jstr) : inter_count A A = length A.
Proof. unfold inter_count. rewrite filter_keep_all; [reflexivity | tauto]. Qed.

Lemma inter_count_disjoint (A B : list jstr) :
  (∀ w, w ∈ A -> w ∉ B) -> inter_count A B = 0%nat.
Proof. intros H. unfold inter_count. rewrite filter_keep_none; [reflexivity | exact H]. Qed.

Lemma length_zero_nil {A} (l : list A) : length l = 0%nat ↔ l = [].
Proof. destruct l; simpl; split; intros H; congruence. Qed.

(** C6 counterexample: [...] and [?!] normalise to no tokens at all, so
    their token sets are (vacuously) disjoint, yet the early return
    [if (!A.size && !B.size) return 1] makes their similarity 1, not 0. *)
Lemma jaccard_empty_disjoint_is_one :
  tokens (js "...") = [] ∧ tokens (js "?!") = []
  ∧ (∀ w, w ∈ tokens (js "...") -> w ∉ tokens (js "?!"))
  ∧ jaccard (js "...") (js "?!") = 1%Q
  ∧ ¬ (jaccard (js "...") (js "?!") == 0)%Q.
Proof.
  split; [vm_compute; reflexivity |]. split; [vm_compute; reflexivity |].
  split; [vm_compute; intros w Hw; inversion Hw |].
  split; [vm_compute; reflexivity |].
  vm_compute. discriminate.
Qed.

(** C6 (amended). Jaccard similarity is symmetric, a string has similarity
    1 with itself, two strings whose normalised token sets are disjoint
    and not both empty have similarity 0, and two strings without any token
    have similarity 1. *)
Theorem jaccard_symmetric_self_disjoint (a b : jstr) :
  jaccard a b = jaccard b a
  ∧ (jaccard a a == 1)%Q
  ∧ ((∀ w, w ∈ tokens a -> w ∉ tokens b) ->
     tokens a ≠ [] ∨ tokens b ≠ [] -> (jaccard a b == 0)%Q)
  ∧ (tokens a = [] -> tokens b = [] -> jaccard a b = 1%Q).
Proof.
  pose proof (js_set_NoDup (tokens a)) as NA.
  pose proof (js_set_NoDup (tokens b)) as NB.
  split; [| split; [| split]].
  - unfold jaccard.
    destruct (decide (length (js_set (tokens a)) = 0%nat ∧ length (js_set (tokens b)) = 0%nat));
    destruct (decide (length (js_set (tokens b)) = 0%nat ∧ length (js_set (tokens a)) = 0%nat));
      try tauto; try reflexivity.
    rewrite (inter_count_comm _ _ NA NB).
    rewrite (Z.add_comm (Z.of_nat (length (js_set (tokens a))))). reflexivity.
  - unfold jaccard.
    destruct (decide (length (js_set (tokens a)) = 0%nat ∧ length (js_set (tokens a)) = 0%nat))
      as [| Hn]; [reflexivity |].
    rewrite inter_count_self.
    replace (Z.of_nat (length (js_set (tokens a))) + Z.of_nat (length (js_set (tokens a)))
             - Z.of_nat (length (js_set (tokens a))))
      with (Z.of_nat (length (js_set (tokens a)))) by lia.
    unfold Qdiv. apply Qmult_inv_r. intros H.
    change 0%Q with (inject_Z 0) in H.
    apply (proj1 (inject_Z_injective _ _)) in H. apply Hn. split; lia.
  - intros Hdis Hne. unfold jaccard.
    destruct (decide (length (js_set (tokens a)) = 0%nat ∧ length (js_set (tokens b)) = 0%nat))
      as [[Ha Hb] |].
    + rewrite length_zero_nil, js_set_nil_iff in Ha, Hb. tauto.
    + rewrite inter_count_disjoint.
      * reflexivity.
      * intros w Hw Hw'. rewrite elem_of_js_set in Hw, Hw'. exact (Hdis w Hw Hw').
  - intros Ha Hb. unfold jaccard. rewrite Ha, Hb.
    destruct (decide (length (js_set []) = 0%nat ∧ length (js_set []) = 0%nat)) as [| Hn];
      [reflexivity |].
    exfalso. apply Hn. split; reflexivity.
Qed.

Lemma jaccard_symmetric_self_disjoint_witness :
  (jaccard (js "Ala ma kota") (js "Ola pisze list") == 0)%Q.
Proof.
  apply (proj1 (proj2 (proj2 (jaccard_symmetric_self_disjoint (js "Ala ma kota") (js "Ola pisze list"))))).
  - vm_compute. intros w Hw Hw'.
    repeat (apply elem_of_cons in Hw as [-> | Hw];
            [repeat (apply elem_of_cons in Hw' as [Hw' | Hw']; [discriminate |]); inversion Hw' |]).
    inversion Hw.
  - left. vm_compute. discriminate.
Defined.

(** ** Lemmas on parseList *)

Lemma js_set_snoc (l : list jstr) (x : jstr) :
  js_set (l ++ [x]) = js_set l ++ (if decide (x ∈ l) then [] else [x]).
Proof.
  unfold js_set at 1. rewrite foldl_snoc. fold (js_set l). unfold set_add.
  destruct (decide (x ∈ js_set l)) as [Hx | Hx];
    destruct (decide (x ∈ l)) as [Hx' | Hx']; rewrite ?elem_of_js_set in Hx;
    try contradiction; rewrite ?app_nil_r; reflexivity.
Qed.

Lemma first_seen_snoc (l : list jstr) (x : jstr) :
  first_seen (l ++ [x]) = first_seen l ++ (if decide (x ∈ l) then [] else [x]).
Proof.
  unfold first_seen. rewrite imap_app, omap_app. f_equal.
  - f_equal. apply imap_ext. intros i y Hi.
    rewrite take_app_le; [reflexivity |].
    apply lookup_lt_Some in Hi. lia.
  - simpl. rewrite Nat.add_0_r, take_app_length.
    destruct (decide (x ∈ l)); reflexivity.
Qed.

Lemma js_set_first_seen (l : list jstr) : js_set l = first_seen l.
Proof.
  induction l as [| x l IH] using rev_ind; [reflexivity |].
  rewrite js_set_snoc, first_seen_snoc, IH. reflexivity.
Qed.

(** C7. The list parser is the specification's pipeline (split on line
    breaks, trim, strip list markers, drop empty lines, deduplicate keeping
    first-seen order, keep lines of 5 to 16 normalised words, cap at 20); its
    result has no duplicates, at most 20 items each of 5 to 16 words, and of
    the lines [- Ala czyta książkę codziennie wieczorem.] and [- Krótko.] only
    the first is kept, the second having one word. *)
Theorem parseList_spec (text : jstr) :
  parseList text = spec_parseList text
  ∧ NoDup (parseList text)
  ∧ (length (parseList text) <= 20)%nat
  ∧ Forall (fun s => (5 <= word_count s)%nat ∧ (word_count s <= 16)%nat) (parseList text)
  ∧ parseList (js "- Ala czyta książkę codziennie wieczorem." ++ [10] ++ js "- Krótko.")
      = [js "Ala czyta książkę codziennie wieczorem."]
  ∧ word_count (strip_marker (js "- Krótko.")) = 1%nat.
Proof.
  split; [| split; [| split; [| split; [| split]]]].
  - unfold parseList, spec_parseList. rewrite js_set_first_seen. reflexivity.
  - unfold parseList. eapply sublist_NoDup; [| apply sublist_take].
    apply NoDup_filter, js_set_NoDup.
  - unfold parseList. rewrite length_take. lia.
  - unfold parseList. apply Forall_take. apply Forall_forall.
    intros x Hx. apply list_elem_of_filter in Hx. exact (proj1 Hx).
  - vm_compute. reflexivity.
  - vm_compute. reflexivity.
Qed.

(** ** Lemmas on the ASR accuracy *)

Lemma Qltb_spec (x y : Q) : Qltb x y = true ↔ (x < y)%Q.
Proof.
  unfold Qltb. rewrite negb_true_iff. split.
  - intros H. apply Qnot_le_lt. intros H'. apply Qle_bool_iff in H'. congruence.
  - intros H. destruct (Qle_bool y x) eqn:E; [| reflexivity].
    apply Qle_bool_iff in E. exfalso. apply (Qlt_not_le _ _ H E).
Qed.

Lemma round_half_even_err (r : Q) :
  (r - (1 # 2) <= inject_Z (round_half_even r) <= r + (1 # 2))%Q.
Proof.
  unfold round_half_even.
  pose proof (Qfloor_le r) as L. pose proof (Qlt_floor r) as U.
  rewrite inject_Z_plus in U. change (inject_Z 1) with 1%Q in U.
  set (f := Qfloor r) in *.
  destruct (Qltb (r - inject_Z f) (1 # 2)) eqn:E1;
    [apply Qltb_spec in E1; split; lra |].
  destruct (Qltb (1 # 2) (r - inject_Z f)) eqn:E2.
  - apply Qltb_spec in E2. rewrite inject_Z_plus. change (inject_Z 1) with 1%Q. split; lra.
  - assert (Hn1 : ~ (r - inject_Z f < 1 # 2)%Q) by (rewrite <- Qltb_spec; congruence).
    assert (Hn2 : ~ (1 # 2 < r - inject_Z f)%Q) by (rewrite <- Qltb_spec; congruence).
    destruct (Z.even f); [| rewrite inject_Z_plus; change (inject_Z 1) with 1%Q]; split; lra.
Qed.

Lemma Qpow2_pos (e : Z) : (0 < Qpow2 e)%Q.
Proof. apply Qpower_0_lt. lra. Qed.

Lemma Qlog2_lower (q : Q) : (0 < Qnum q)%Z -> (Qpow2 (Qlog2 q) <= q)%Q.
Proof.
  intros Hn. unfold Qlog2.
  destruct (Qle_bool _ q) eqn:E; [apply Qle_bool_iff; exact E |].
  destruct q as [n d]. cbn [Qnum Qden] in *.
  set (a := Z.log2 n). set (b := Z.log2 (Z.pos d)).
  destruct (Z.log2_spec n Hn) as [Ha _].
  destruct (Z.log2_spec (Z.pos d) eq_refl) as [_ Hb].
  pose proof (Z.log2_nonneg n). pose proof (Z.log2_nonneg (Z.pos d)).
  fold a b in Ha, Hb, H, H0.
  rewrite <- Z.add_1_r in Hb.
  unfold Qpow2. replace (a - b - 1)%Z with (a + - (b + 1))%Z by lia.
  rewrite Qpower_plus by lra. rewrite Qpower_opp.
  assert (E1 : (2 ^ a == inject_Z (2 ^ a))%Q) by (symmetry; apply (Zpower_Qpower 2 a); lia).
  assert (E2 : (2 ^ (b + 1) == inject_Z (2 ^ (b + 1)))%Q)
    by (symmetry; apply (Zpower_Qpower 2 (b + 1)); lia).
  rewrite E1, E2.
  rewrite Qmake_Qdiv.
  assert (HA : (0 < inject_Z (2 ^ a))%Q).
  { change 0%Q with (inject_Z 0). rewrite <- Zlt_Qlt. apply Z.pow_pos_nonneg; lia. }
  assert (HAN : (inject_Z (2 ^ a) <= inject_Z n)%Q) by (rewrite <- Zle_Qle; exact Ha).
  assert (HD : (0 < inject_Z (Z.pos d))%Q) by (change 0%Q with (inject_Z 0); rewrite <- Zlt_Qlt; lia).
  assert (HDB : (inject_Z (Z.pos d) <= inject_Z (2 ^ (b + 1)))%Q)
    by (rewrite <- Zle_Qle; lia).
  set (A := inject_Z (2 ^ a)) in *. set (N := inject_Z n) in *.
  set (D := inject_Z (Z.pos d)) in *. set (B := inject_Z (2 ^ (b + 1))) in *.
  assert (HB : (0 < B)%Q) by lra.
  apply Qle_shift_div_l; [exact HD |].
  assert (HX : (0 < / B)%Q) by (apply Qinv_lt_0_compat; exact HB).
  assert (HBX : (B * / B == 1)%Q) by (apply Qmult_inv_r; intros E'; rewrite E' in HB; discriminate).
  set (X := / B) in *.
  assert (XD : (0 <= X * D)%Q) by (apply Qmult_le_0_compat; lra).
  assert (NX : (0 <= N * X)%Q) by (apply Qmult_le_0_compat; lra).
  assert (H1 : (A * X * D <= N * X * D)%Q) by nra.
  assert (H2 : (N * X * D <= N * X * B)%Q) by nra.
  assert (H3 : (N * X * B == N)%Q) by (rewrite <- Qmult_assoc, (Qmult_comm X), HBX; ring).
  lra.
Qed.

Lemma dbl_comp (x y : Q) : (x == y)%Q -> dbl x = dbl y.
Proof. intros H. unfold dbl. rewrite (Qred_complete x y H). reflexivity. Qed.

Lemma dbl_error (q : Q) : (0 <= q)%Q -> (q - q * eps53 <= dbl q <= q + q * eps53)%Q.
Proof.
  intros Hq. unfold dbl, eps53. pose proof (Qred_correct q) as Hr. set (q' := Qred q) in *.
  destruct (Qle_bool q' 0) eqn:E.
  - apply Qle_bool_iff in E. split; lra.
  - assert (Hp : (0 < q')%Q).
    { apply Qnot_le_lt. intros H. apply Qle_bool_iff in H. congruence. }
    assert (Hn : (0 < Qnum q')%Z) by (unfold Qlt in Hp; simpl in Hp; lia).
    pose proof (Qlog2_lower q' Hn) as L.
    set (k := (Qlog2 q' - 52)%Z).
    assert (EP : (Qpow2 (Qlog2 q') == Qpow2 k * 4503599627370496)%Q).
    { unfold Qpow2, k. replace (Qlog2 q') with ((Qlog2 q' - 52) + 52)%Z at 1 by lia.
      rewrite Qpower_plus by lra. reflexivity. }
    pose proof (Qpow2_pos k) as HP.
    assert (EI : (Qpow2 k * Qpow2 (- k) == 1)%Q).
    { unfold Qpow2. rewrite Qpower_opp. apply Qmult_inv_r. intros E'. rewrite E' in HP. discriminate. }
    set (P := Qpow2 k) in *. set (Pi := Qpow2 (- k)) in *.
    pose proof (round_half_even_err (q' * Pi)) as [R1 R2].
    set (m := inject_Z (round_half_even (q' * Pi))) in *.
    assert (X1 : (0 <= (m - (q' * Pi - (1 # 2))) * P)%Q) by (apply Qmult_le_0_compat; lra).
    assert (X2 : (0 <= (q' * Pi + (1 # 2) - m) * P)%Q) by (apply Qmult_le_0_compat; lra).
    assert (X3 : (q' * Pi * P == q')%Q) by (rewrite <- Qmult_assoc, (Qmult_comm Pi), EI; ring).
    assert (X4 : (P * 4503599627370496 <= q')%Q) by (rewrite <- EP; exact L).
    split; nra.
Qed.

Lemma list_to_set_inter (A B : list jstr) :
  (list_to_set A : gset jstr) ∩ list_to_set B = list_to_set (filter (fun w => w ∈ B) A).
Proof.
  apply leibniz_equiv. apply set_equiv. intros x.
  rewrite elem_of_intersection, !elem_of_list_to_set, list_elem_of_filter. tauto.
Qed.

Lemma set_empty_size (X : gset jstr) : X = ∅ ↔ size X = 0%nat.
Proof.
  rewrite size_empty_iff. split; [intros ->; reflexivity | apply leibniz_equiv].
Qed.

(** The handler's [jacc] applies [Math.round] to the double product of
    100 and the double nearest to the Jaccard index of the two token sets. *)
Lemma jacc_jaccard_index (isLM : Z -> bool) (a b : jstr) :
  jacc isLM a b
  = js_round (dbl (dbl (jaccard_index (token_set isLM a) (token_set isLM b)) * 100)).
Proof.
  unfold jacc, jaccard_index, token_set.
  set (A := asr_tokens isLM a). set (B := asr_tokens isLM b).
  assert (NA : NoDup A) by apply js_set_NoDup.
  assert (NB : NoDup B) by apply js_set_NoDup.
  assert (SA : size (list_to_set A : gset jstr) = length A) by (apply size_list_to_set; exact NA).
  assert (SB : size (list_to_set B : gset jstr) = length B) by (apply size_list_to_set; exact NB).
  assert (SI : size ((list_to_set A : gset jstr) ∩ list_to_set B) = inter_count A B).
  { rewrite list_to_set_inter. apply size_list_to_set. apply NoDup_filter. exact NA. }
  assert (IA : (inter_count A B <= length A)%nat).
  { rewrite <- SI, <- SA. apply subseteq_size. apply intersection_subseteq_l. }
  assert (IB : (inter_count A B <= length B)%nat).
  { rewrite <- SI, <- SB. apply subseteq_size. apply intersection_subseteq_r. }
  assert (SU : size ((list_to_set A : gset jstr) ∪ list_to_set B)
               = (length A + (length B - inter_count A B))%nat).
  { rewrite size_union_alt, size_difference_alt, intersection_comm_L, SA, SB, SI. reflexivity. }
  destruct (decide (length A = 0%nat ∧ length B = 0%nat)) as [[HA HB] | Hn];
  destruct (decide ((list_to_set A : gset jstr) ∪ list_to_set B = ∅)) as [He | He];
    rewrite ?set_empty_size in He.
  - vm_compute. reflexivity.
  - exfalso. apply He. lia.
  - exfalso. apply Hn. lia.
  - rewrite SU, SI. do 6 f_equal. lia.
Qed.

Lemma Qfloor_ge (z : Z) (x : Q) : (inject_Z z <= x)%Q -> (z <= Qfloor x)%Z.
Proof. intros H. rewrite <- (Qfloor_Z z). apply Qfloor_resp_le. exact H. Qed.

(** Rounding the quotient and the product to doubles moves the percentage
    by far less than one half, so [Math.round] lands on the floor or the
    ceiling of the exact percentage. *)
Lemma dbl_percent_round (J : Q) :
  (0 <= J <= 1)%Q ->
  (Qfloor (J * 100) <= js_round (dbl (dbl J * 100)) <= Qceiling (J * 100))%Z.
Proof.
  intros HJ.
  destruct (dbl_error J) as [D1 D2]; [lra |].
  destruct (dbl_error (dbl J * 100)) as [D3 D4]; [unfold eps53 in *; lra |].
  unfold eps53 in *. set (d1 := dbl J) in *. set (d2 := dbl (d1 * 100)) in *.
  unfold js_round. split.
  - apply Qfloor_ge. pose proof (Qfloor_le (J * 100)). lra.
  - pose proof (Qfloor_le (d2 + (1 # 2))) as F. pose proof (Qle_ceiling (J * 100)) as C.
    assert (Hlt : (inject_Z (Qfloor (d2 + (1 # 2))) < inject_Z (Qceiling (J * 100) + 1))%Q).
    { rewrite inject_Z_plus. change (inject_Z 1) with 1%Q. lra. }
    rewrite <- Zlt_Qlt in Hlt. lia.
Qed.

Lemma jaccard_index_unit (A B : gset jstr) : (0 <= jaccard_index A B <= 1)%Q.
Proof.
  unfold jaccard_index. destruct (decide (A ∪ B = ∅)) as [| Hn]; [lra |].
  rewrite set_empty_size in Hn.
  assert (H : (size (A ∩ B) <= size (A ∪ B))%nat) by (apply subseteq_size; set_solver).
  set (i := Z.of_nat (size (A ∩ B))). set (u := Z.of_nat (size (A ∪ B))).
  assert (Hu : (0 < inject_Z u)%Q) by (change 0%Q with (inject_Z 0); rewrite <- Zlt_Qlt; lia).
  split.
  - apply Qle_shift_div_l; [exact Hu |]. rewrite Qmult_0_l.
    change 0%Q with (inject_Z 0). rewrite <- Zle_Qle. lia.
  - apply Qle_shift_div_r; [exact Hu |]. rewrite Qmult_1_l. rewrite <- Zle_Qle. lia.
Qed.

(** C8 counterexample: with [MOCK_ASR] set the handler answers with the
    canned accuracy 87 even when no expected text is supplied. *)
Lemma mock_asr_accuracy_without_expected :
  asr_response_accuracy latin_letter_mark
    {| GROQ_API_KEY_set := false; OPENAI_API_KEY_set := false; MOCK_TEXT := false;
       MOCK_ASR := true; DEADLINE_MS := 1200 |} None (js "Ala ma kota") = 87.
Proof. reflexivity. Qed.

(** Rounding to doubles can take a percentage lying exactly halfway
    between two integers below the half: 23 tokens shared out of 40 give
    [23/40*100], which the doubles compute as [57.49999999999999], so the
    accuracy is 57 where rounding the exact percentage 57.5 gives 58. *)
Example jacc_half_rounds_down :
  asr_response_accuracy latin_letter_mark
    {| GROQ_API_KEY_set := true; OPENAI_API_KEY_set := false; MOCK_TEXT := false;
       MOCK_ASR := false; DEADLINE_MS := 1200 |}
    (Some (js "1 2 3 4 5 6 7 8 9 10 11 12 13 14 15 16 17 18 19 20 21 22 23")) (js "1 2 3 4 5 6 7 8 9 10 11 12 13 14 15 16 17 18 19 20 21 22 23 24 25 26 27 28 29 30 31 32 33 34 35 36 37 38 39 40") = 57
  ∧ js_round (jaccard_index (token_set latin_letter_mark (js "1 2 3 4 5 6 7 8 9 10 11 12 13 14 15 16 17 18 19 20 21 22 23 24 25 26 27 28 29 30 31 32 33 34 35 36 37 38 39 40"))
                            (token_set latin_letter_mark (js "1 2 3 4 5 6 7 8 9 10 11 12 13 14 15 16 17 18 19 20 21 22 23")) * 100) = 58.
Proof. split; vm_compute; reflexivity. Qed.

(** C8 (amended). Outside the mock mode, the accuracy returned by POST /asr
    is 0 when the expected text is absent or empty. Otherwise it is
    [Math.round] of the double computed for [(|A ∩ B| / |A ∪ B|) * 100]
    from the token sets [A] and [B] of the recognised and the expected text
    (100 when neither has a token): the floor or the ceiling of the exact
    Jaccard percentage, and always an integer between 0 and 100. *)
Theorem asr_accuracy_jaccard_percent (isLM : Z -> bool) (env : Env)
    (expected : option jstr) (recognized : jstr) :
  MOCK_ASR env = false ->
  asr_response_accuracy isLM env expected recognized
    = (if decide (default [] expected = []) then 0
       else js_round (dbl (dbl (jaccard_index (token_set isLM recognized)
                                              (token_set isLM (default [] expected))) * 100)))
  ∧ (default [] expected ≠ [] ->
     Qfloor (jaccard_index (token_set isLM recognized) (token_set isLM (default [] expected)) * 100)
       <= asr_response_accuracy isLM env expected recognized
       <= Qceiling (jaccard_index (token_set isLM recognized)
                                  (token_set isLM (default [] expected)) * 100))
  ∧ 0 <= asr_response_accuracy isLM env expected recognized <= 100.
Proof.
  intros Hm. unfold asr_response_accuracy, asr_accuracy. rewrite Hm.
  destruct (decide (default [] expected = [])) as [He | He].
  - split; [reflexivity | split; [intros []; exact He | lia]].
  - rewrite jacc_jaccard_index.
    pose proof (jaccard_index_unit (token_set isLM recognized) (token_set isLM (default [] expected)))
      as HJ.
    pose proof (dbl_percent_round _ HJ) as [L U].
    split; [reflexivity | split; [intros _; split; assumption |]].
    set (J := jaccard_index _ _) in *.
    assert (L0 : (0 <= Qfloor (J * 100))%Z).
    { apply Qfloor_ge. change (inject_Z 0) with 0%Q. lra. }
    assert (U0 : (Qceiling (J * 100) <= 100)%Z).
    { pose proof (Qceiling_resp_le (J * 100) 100 ltac:(lra)) as C.
      change (Qceiling 100) with 100%Z in C. exact C. }
    lia.
Qed.

Lemma asr_accuracy_jaccard_percent_witness :
  (Qfloor (jaccard_index (token_set latin_letter_mark (js "ala ma psa"))
                         (token_set latin_letter_mark (js "Ala ma kota")) * 100)
   <= asr_response_accuracy latin_letter_mark
        {| GROQ_API_KEY_set := true; OPENAI_API_KEY_set := false; MOCK_TEXT := false;
           MOCK_ASR := false; DEADLINE_MS := 1200 |} (Some (js "Ala ma kota")) (js "ala ma psa")
   <= Qceiling (jaccard_index (token_set latin_letter_mark (js "ala ma psa"))
                              (token_set latin_letter_mark (js "Ala ma kota")) * 100))%Z.
Proof.
  apply (proj1 (proj2 (asr_accuracy_jaccard_percent latin_letter_mark
    {| GROQ_API_KEY_set := true; OPENAI_API_KEY_set := false; MOCK_TEXT := false;
       MOCK_ASR := false; DEADLINE_MS := 1200 |} (Some (js "Ala ma kota")) (js "ala ma psa")
    eq_refl))).
  discriminate.
Defined.

(** ** Lemmas on the greeting history *)

Lemma generateGreetingV2_history (isLM : Z -> bool) env h name age g o :
  let '(h', r) := generateGreetingV2 isLM env h name age g o in
  match r with
  | inl _ => h' = h
  | inr (t, _) => h' = <[profileKey name age := take 20 (t :: default [] (h !! profileKey name age))]> h
  end.
Proof.
  unfold generateGreetingV2.
  destruct (result (race env g o)); [| reflexivity].
  destruct (decide _); reflexivity.
Qed.

Lemma hist_bounded_insert (h : history_map) (k : jstr) (l : list jstr) :
  hist_bounded h -> hist_bounded (<[k := take 20 l]> h).
Proof.
  intros Hh. apply map_Forall_insert_2; [| exact Hh].
  simpl. rewrite length_take. lia.
Qed.

Lemma server_step_history (isLM : Z -> bool) env h req :
  (server_step isLM env h req).1 = h
  ∨ ∃ name age g o t src,
      req = GreetingReq name age g o
      ∧ server_step isLM env h req
        = (<[profileKey name age := take 20 (t :: default [] (h !! profileKey name age))]> h,
           (200, [("ok"%string, JBool true); ("text"%string, JStr t); ("source"%string, JStr src)])).
Proof.
  destruct req as [name age g o | lang lvl rnd g o]; simpl; [| left; reflexivity].
  unfold generate_greeting_endpoint.
  pose proof (generateGreetingV2_history isLM env h name age g o) as Hg.
  destruct (generateGreetingV2 isLM env h name age g o) as [h' [e | [t src]]].
  - left. exact Hg.
  - right. exists name, age, g, o, t, src. split; [reflexivity |]. rewrite Hg. reflexivity.
Qed.

(** C9. Every request leaves [recentGreetings] unchanged, except a greeting
    request answered 200 with text [t], which stores [t] in front of the
    profile's previous list truncated to 20; hence, starting from lists of at
    most 20 greetings, every list keeps at most 20 greetings after any
    sequence of requests. *)
Theorem greeting_history_invariant (isLM : Z -> bool) (env : Env) (h : history_map)
    (reqs : list request) :
  hist_bounded h ->
  hist_bounded (run_server isLM env h reqs)
  ∧ ∀ req, (server_step isLM env h req).1 = h
           ∨ ∃ name age g o t src,
               req = GreetingReq name age g o
               ∧ server_step isLM env h req
                 = (<[profileKey name age := take 20 (t :: default [] (h !! profileKey name age))]> h,
                    (200, [("ok"%string, JBool true); ("text"%string, JStr t);
                           ("source"%string, JStr src)])).
Proof.
  intros Hh. split; [| intros req; apply server_step_history].
  revert h Hh. induction reqs as [| req reqs IH]; intros h Hh; simpl; [exact Hh |].
  apply IH.
  destruct (server_step_history isLM env h req) as [-> | (name & age & g & o & t & src & _ & ->)];
    [exact Hh |].
  apply hist_bounded_insert. exact Hh.
Qed.

Lemma greeting_history_invariant_witness :
  hist_bounded
    (run_server latin_letter_mark
       {| GROQ_API_KEY_set := true; OPENAI_API_KEY_set := false; MOCK_TEXT := false;
          MOCK_ASR := false; DEADLINE_MS := 1200 |}
       ∅ [GreetingReq (js "Zosia") (Some 6) (Some (10%nat, Answer (js "Hej"))) None;
          TextReq (js "pl") (js "A1") 0 None None]).
Proof.
  apply (proj1 (greeting_history_invariant latin_letter_mark
       {| GROQ_API_KEY_set := true; OPENAI_API_KEY_set := false; MOCK_TEXT := false;
          MOCK_ASR := false; DEADLINE_MS := 1200 |}
       ∅ [GreetingReq (js "Zosia") (Some 6) (Some (10%nat, Answer (js "Hej"))) None;
          TextReq (js "pl") (js "A1") 0 None None]
       ltac:(apply map_Forall_empty))).
Defined.

(** ** The unsanitised fallback of generateGreetingV2 *)

Lemma js_or_cleaned_picked (cleaned picked : jstr) :
  default [] (js_or (Some cleaned) (Some picked))
  = if decide (cleaned = []) then picked else cleaned.
Proof. unfold js_or. destruct (decide (cleaned = [])); reflexivity. Qed.

(** C10. When the pipeline succeeds, the returned and stored text is the
    sanitised pick, or the unsanitised pick when sanitising leaves nothing
    ([finalText = cleaned || picked]); so a provider answering [Hej] yields
    the greeting [Hej], a forbidden greeting word, and one answering
    [Zosia.] for the child [Zosia] yields the child's name, both returned
    with status 200 and stored in the history. *)
Theorem greeting_unsanitized_fallback (isLM : Z -> bool) (env : Env) (h : history_map)
    (name : jstr) (age : option Z) (g o : call) :
  (∀ h' t src,
     generateGreetingV2 isLM env h name age g o = (h', inr (t, src)) ->
     ∃ w, result (race env g o) = Fulfilled w
          ∧ let picked := chooseMostNovel (greeting_candidates (text w))
                            (Some (default [] (h !! profileKey name age))) in
            t = (if decide (sanitizeNoName isLM name picked = []) then picked
                 else sanitizeNoName isLM name picked)
            ∧ h' = <[profileKey name age := take 20 (t :: default [] (h !! profileKey name age))]> h)
  ∧ generate_greeting_endpoint isLM
      {| GROQ_API_KEY_set := true; OPENAI_API_KEY_set := false; MOCK_TEXT := false;
         MOCK_ASR := false; DEADLINE_MS := 1200 |}
      ∅ (js "Zosia") None (Some (10%nat, Answer (js "Hej"))) None
    = (<[profileKey (js "Zosia") None := [js "Hej"]]> ∅,
       (200, [("ok"%string, JBool true); ("text"%string, JStr (js "Hej"));
              ("source"%string, JStr (js "groq"))]))
  ∧ generate_greeting_endpoint isLM
      {| GROQ_API_KEY_set := true; OPENAI_API_KEY_set := false; MOCK_TEXT := false;
         MOCK_ASR := false; DEADLINE_MS := 1200 |}
      ∅ (js "Zosia") None (Some (10%nat, Answer (js "Zosia."))) None
    = (<[profileKey (js "Zosia") None := [js "Zosia"]]> ∅,
       (200, [("ok"%string, JBool true); ("text"%string, JStr (js "Zosia"));
              ("source"%string, JStr (js "groq"))]))
  ∧ js "hej" ∈ FORBIDDEN_HELLOS.
Proof.
  split; [| split; [| split]].
  - intros h' t src. unfold generateGreetingV2.
    destruct (result (race env g o)) as [w | e]; [| discriminate].
    destruct (decide _) as [| Hne]; [discriminate |].
    set (picked := chooseMostNovel (greeting_candidates (text w))
                     (Some (default [] (h !! profileKey name age)))).
    set (cleaned := sanitizeNoName isLM name picked).
    intros E. exists w. split; [reflexivity |]. cbv zeta.
    rewrite <- js_or_cleaned_picked. fold picked. fold cleaned.
    revert E. generalize (default [] (js_or (Some cleaned) (Some picked))) as ft.
    intros ft E. injection E as <- <- _. split; reflexivity.
  - vm_compute. reflexivity.
  - vm_compute. reflexivity.
  - apply elem_of_cons. right. left.
Qed.

Lemma greeting_unsanitized_fallback_witness :
  ∃ w, result (race {| GROQ_API_KEY_set := true; OPENAI_API_KEY_set := false; MOCK_TEXT := false;
                      MOCK_ASR := false; DEADLINE_MS := 1200 |}
                  (Some (10%nat, Answer (js "Hej"))) None) = Fulfilled w
       ∧ let picked := chooseMostNovel (greeting_candidates (text w))
                         (Some (default [] ((∅ : history_map) !! profileKey (js "Zosia") None))) in
         js "Hej" = (if decide (sanitizeNoName latin_letter_mark (js "Zosia") picked = []) then picked
                    else sanitizeNoName latin_letter_mark (js "Zosia") picked)
         ∧ <[profileKey (js "Zosia") None := [js "Hej"]]> ∅
           = <[profileKey (js "Zosia") None :=
                 take 20 (js "Hej" :: default [] ((∅ : history_map) !! profileKey (js "Zosia") None))]>
               (∅ : history_map).
Proof.
  assert (E : generateGreetingV2 latin_letter_mark {| GROQ_API_KEY_set := true; OPENAI_API_KEY_set := false; MOCK_TEXT := false;
       MOCK_ASR := false; DEADLINE_MS := 1200 |} ∅ (js "Zosia") None
    (Some (10%nat, Answer (js "Hej"))) None = ((<[profileKey (js "Zosia") None := [js "Hej"]]> ∅), inr (js "Hej", js "groq")))
    by (vm_compute; reflexivity).
  pose proof (proj1 (greeting_unsanitized_fallback latin_letter_mark
    {| GROQ_API_KEY_set := true; OPENAI_API_KEY_set := false; MOCK_TEXT := false;
       MOCK_ASR := false; DEADLINE_MS := 1200 |} ∅ (js "Zosia") None
    (Some (10%nat, Answer (js "Hej"))) None)) as H.
  specialize (H _ _ _ E).
  exact H.
Defined.

(** ** Further properties of the code *)

Lemma drop_while_head (p : Z -> bool) (s : jstr) c :
  head (drop_while p s) = Some c -> p c = false.
Proof.
  induction s as [| x s IH]; simpl; [discriminate |].
  destruct (p x) eqn:E; [exact IH |]. intros [= <-]. exact E.
Qed.

Lemma drop_while_suffix (p : Z -> bool) (s : jstr) : ∃ pre, s = pre ++ drop_while p s.
Proof.
  induction s as [| x s [pre IH]]; simpl; [exists []; reflexivity |].
  destruct (p x); [exists (x :: pre); simpl; f_equal; exact IH | exists []; reflexivity].
Qed.

Lemma drop_while_keep (p : Z -> bool) (s : jstr) :
  (∀ c, head s = Some c -> p c = false) -> drop_while p s = s.
Proof.
  destruct s as [| x s]; simpl; [reflexivity |]. intros H. rewrite (H x eq_refl). reflexivity.
Qed.

Lemma js_trim_prefix (s : jstr) : ∃ suf, js_trim_start s = js_trim s ++ suf.
Proof.
  unfold js_trim. destruct (drop_while_suffix is_space (reverse (js_trim_start s))) as [pre E].
  exists (reverse pre). unfold js_trim_start in *.
  set (u := drop_while is_space s) in *. set (d := drop_while is_space (reverse u)) in *.
  clearbody d. rewrite <- (reverse_involutive u), E, reverse_app. reflexivity.
Qed.

Lemma head_prefix (a b : jstr) c : head a = Some c -> head (a ++ b) = Some c.
Proof. destruct a; simpl; [discriminate | tauto]. Qed.

Lemma last_suffix (a b : jstr) c : last b = Some c -> last (a ++ b) = Some c.
Proof. intros H. rewrite last_app, H. reflexivity. Qed.

Lemma no_edge_space_trim (s : jstr) : no_edge_space (js_trim s).
Proof.
  split.
  - intros c Hc. destruct (js_trim_prefix s) as [suf E].
    apply (drop_while_head is_space s). fold (js_trim_start s). rewrite E.
    apply head_prefix. exact Hc.
  - intros c Hc. unfold js_trim in Hc. rewrite last_reverse in Hc.
    exact (drop_while_head _ _ _ Hc).
Qed.

Lemma sanitize_edges (isLM : Z -> bool) (name raw : jstr) :
  (∀ c, head (sanitizeNoName isLM name raw) = Some c -> is_lead_junk c = false)
  ∧ (∀ c, last (sanitizeNoName isLM name raw) = Some c -> is_space c = false).
Proof.
  unfold sanitizeNoName.
  set (s := if decide (name = []) then _ else _). clearbody s.
  split; [| apply no_edge_space_trim].
  intros c Hc. set (u := drop_while is_lead_junk s) in *.
  assert (Hu : ∀ c, head u = Some c -> is_lead_junk c = false) by apply drop_while_head.
  assert (Hs : js_trim_start u = u).
  { apply drop_while_keep. intros x Hx. specialize (Hu x Hx).
    unfold is_lead_junk in Hu. repeat rewrite orb_false_iff in Hu. tauto. }
  destruct (js_trim_prefix u) as [suf E]. rewrite Hs in E.
  apply Hu. rewrite E. apply head_prefix. exact Hc.
Qed.

(** The output of [sanitizeNoName] never starts with a character of the
    leading-junk class (comma, dashes, pipe, colon, semicolon, exclamation
    mark, period or whitespace) and never ends with whitespace. *)
Theorem sanitizeNoName_trimmed (isLM : Z -> bool) (name raw : jstr) :
  (∀ c, head (sanitizeNoName isLM name raw) = Some c -> is_lead_junk c = false)
  ∧ (∀ c, last (sanitizeNoName isLM name raw) = Some c -> is_space c = false).
Proof. apply sanitize_edges. Qed.

Lemma no_edge_space_strip_marker (s : jstr) :
  no_edge_space (strip_marker (js_trim s)).
Proof.
  pose proof (no_edge_space_trim s) as [Hh Hl].
  set (l := js_trim s) in *. clearbody l.
  destruct l as [| c r]; [split; simpl; discriminate |].
  unfold strip_marker. destruct (is_marker c); [| split; assumption].
  split.
  - intros x Hx. exact (drop_while_head _ _ _ Hx).
  - intros x Hx. apply Hl.
    destruct (drop_while_suffix is_marker (c :: r)) as [p1 E1].
    destruct (drop_while_suffix is_space (drop_while is_marker (c :: r))) as [p2 E2].
    rewrite E1, E2, app_assoc. apply last_suffix. exact Hx.
Qed.

Lemma greeting_candidates_edges (raw : jstr) :
  Forall (fun c => c ≠ [] ∧ no_edge_space c) (greeting_candidates raw).
Proof.
  unfold greeting_candidates.
  destruct (decide _).
  - unfold fallback_candidates, filter_nonempty.
    apply Forall_forall. intros x Hx. apply list_elem_of_filter in Hx as [Hne Hx].
    apply list_elem_of_fmap in Hx as [y [-> _]]. split; [exact Hne | apply no_edge_space_trim].
  - unfold parseList. apply Forall_take. apply Forall_forall. intros x Hx.
    apply list_elem_of_filter in Hx as [_ Hx]. apply (proj1 (elem_of_js_set _ _)) in Hx.
    unfold filter_nonempty in Hx.
    apply list_elem_of_filter in Hx as [Hne Hx]. split; [exact Hne |].
    apply list_elem_of_fmap in Hx as [y [-> Hy]].
    apply list_elem_of_filter in Hy as [_ Hy].
    apply list_elem_of_fmap in Hy as [z [-> _]]. apply no_edge_space_strip_marker.
Qed.

Lemma first_fulfilled_spec (rs : list (option settled)) :
  earliest_spec rs (first_fulfilled rs).
Proof.
  induction rs as [| x rs IH] using rev_ind.
  - simpl. intros r Hr. inversion Hr.
  - unfold first_fulfilled in *. rewrite foldl_app. simpl.
    destruct (foldl _ None rs) as [[ta va] |] eqn:Ea;
      destruct (fulfilled_at x) as [[tb vb] |] eqn:Eb; simpl.
    + destruct IH as (i & r & Hi & Hr & Hmin).
      pose proof (lookup_lt_Some _ _ _ Hi) as Hlt.
      destruct (tb <? ta)%nat eqn:Ht; [apply Nat.ltb_lt in Ht | apply Nat.ltb_ge in Ht].
      * exists (length rs), x. split; [apply lookup_snoc_Some; right; split; reflexivity | split; [exact Eb |]].
        intros j r' t' w' Hj Hr'. apply lookup_snoc_Some in Hj as [[Hj Hj'] | [-> <-]].
        -- destruct (Hmin j r' t' w' Hj' Hr'). lia.
        -- rewrite Eb in Hr'. injection Hr' as <- <-. lia.
      * exists i, r. split; [apply lookup_app_l_Some; exact Hi | split; [exact Hr |]].
        intros j r' t' w' Hj Hr'. apply lookup_snoc_Some in Hj as [[Hj Hj'] | [-> <-]].
        -- exact (Hmin j r' t' w' Hj' Hr').
        -- rewrite Eb in Hr'. injection Hr' as <- <-. lia.
    + destruct IH as (i & r & Hi & Hr & Hmin).
      exists i, r. split; [apply lookup_app_l_Some; exact Hi | split; [exact Hr |]].
      intros j r' t' w' Hj Hr'. apply lookup_snoc_Some in Hj as [[Hj Hj'] | [-> <-]].
      * exact (Hmin j r' t' w' Hj' Hr').
      * rewrite Eb in Hr'. discriminate.
    + exists (length rs), x. split; [apply lookup_snoc_Some; right; split; reflexivity | split; [exact Eb |]].
      intros j r' t' w' Hj Hr'. apply lookup_snoc_Some in Hj as [[Hj Hj'] | [-> <-]].
      * rewrite (IH r' (list_elem_of_lookup_2 _ _ _ Hj')) in Hr'. discriminate.
      * rewrite Eb in Hr'. injection Hr' as <- <-. lia.
    + intros r Hr. apply elem_of_app in Hr as [Hr | Hr]; [exact (IH r Hr) |].
      apply list_elem_of_singleton in Hr. subst. exact Eb.
Qed.

Lemma race_fulfilled_iff (env : Env) (g o : call) (w : ProviderResult) :
  result (race env g o) = Fulfilled w ↔
  ∃ t, first_fulfilled (racers env g o) = Some (t, w) ∧ (t < deadline_timer env)%nat.
Proof.
  unfold race, withDeadline, promise_any, deadline_timer.
  destruct (first_fulfilled _) as [[t v] |].
  - simpl. destruct (t <? _)%nat eqn:E; simpl.
    + apply Nat.ltb_lt in E. split.
      * intros [= ->]. exists t. split; [reflexivity | exact E].
      * intros (t' & [= -> ->] & _). reflexivity.
    + apply Nat.ltb_ge in E. split; [discriminate |].
      intros (t' & [= -> ->] & Hlt). lia.
  - split; [| intros (t & Ht & _); discriminate].
    destruct (all_rejected _) as [[t es] |]; simpl; [destruct (t <? _)%nat |]; simpl; discriminate.
Qed.

Lemma race_at_ms_le (env : Env) (g o : call) : (at_ms (race env g o) <= deadline_timer env)%nat.
Proof.
  unfold race, withDeadline, deadline_timer.
  destruct (promise_any _) as [s |]; simpl; [| lia].
  destruct (at_ms s <? _)%nat eqn:E; simpl; [apply Nat.ltb_lt in E |]; lia.
Qed.

(** The race settles no later than the deadline timer. A fulfilled race
    carries the value of a racer that fulfilled before the timer, no later
    than any other fulfilling racer. If some racer fulfils before the timer,
    the race is fulfilled. *)
Theorem race_winner_earliest (env : Env) (g o : call) :
  (at_ms (race env g o) <= deadline_timer env)%nat
  ∧ (∀ w, result (race env g o) = Fulfilled w ->
       ∃ r t, r ∈ racers env g o ∧ fulfilled_at r = Some (t, w)
         ∧ (t < deadline_timer env)%nat
         ∧ ∀ r' t' w', r' ∈ racers env g o -> fulfilled_at r' = Some (t', w') -> (t <= t')%nat)
  ∧ ((∃ r, r ∈ racers env g o ∧ fulfils_before (deadline_timer env) r = true) ->
       ∃ w, result (race env g o) = Fulfilled w).
Proof.
  split; [apply race_at_ms_le | split].
  - intros w Hw. apply race_fulfilled_iff in Hw as (t & Hf & Ht).
    pose proof (first_fulfilled_spec (racers env g o)) as Hs. rewrite Hf in Hs.
    destruct Hs as (i & r & Hi & Hr & Hmin). exists r, t.
    split; [exact (list_elem_of_lookup_2 _ _ _ Hi) | split; [exact Hr | split; [exact Ht |]]].
    intros r' t' w' Hin' Hr'. apply list_elem_of_lookup_1 in Hin' as [j Hj].
    exact (proj1 (Hmin j r' t' w' Hj Hr')).
  - intros (r & Hin & Hb).
    destruct r as [[t0 [v0 | e0]] |]; simpl in Hb; try discriminate.
    apply Nat.ltb_lt in Hb.
    pose proof (first_fulfilled_spec (racers env g o)) as Hs.
    destruct (first_fulfilled (racers env g o)) as [[t w] |] eqn:Hf.
    + destruct Hs as (i & r & Hi & Hr & Hmin).
      apply list_elem_of_lookup_1 in Hin as [j Hj].
      destruct (Hmin j _ t0 v0 Hj eq_refl) as [Hle _].
      exists w. apply race_fulfilled_iff. exists t. split; [exact Hf | lia].
    + specialize (Hs _ Hin). discriminate.
Qed.

Lemma race_fulfilled_provider (env : Env) (g o : call) (w : ProviderResult) :
  result (race env g o) = Fulfilled w -> provider w = js "groq" ∨ provider w = js "openai".
Proof.
  intros Hw. apply race_fulfilled_iff in Hw as (t & Hf & _).
  pose proof (first_fulfilled_spec (racers env g o)) as Hs. rewrite Hf in Hs.
  destruct Hs as (i & r & Hi & Hr & _).
  apply list_elem_of_lookup_2 in Hi. unfold racers in Hi.
  apply elem_of_app in Hi as [Hi | Hi];
    [destruct (GROQ_API_KEY_set env) | destruct (OPENAI_API_KEY_set env)];
    try (exfalso; exact (not_elem_of_nil _ Hi));
    apply list_elem_of_singleton in Hi; subst r.
  - left. destruct g as [[t0 [txt | e]] |]; simpl in Hr; try discriminate.
    injection Hr as _ <-. reflexivity.
  - right. destruct o as [[t0 [txt | e]] |]; simpl in Hr; try discriminate.
    destruct (decide (js_trim txt = [])); simpl in Hr; try discriminate.
    injection Hr as _ <-. reflexivity.
Qed.

Lemma error_response_code (e : js_error) : (error_response e).1 = 502 ∨ (error_response e).1 = 504.
Proof. unfold error_response. destruct (decide _); simpl; [right | left]; reflexivity. Qed.

Lemma pick_in (arr : list jstr) (rnd : nat) : arr ≠ [] -> pick arr rnd ∈ arr.
Proof.
  intros Hne. unfold pick.
  assert (Hl : (0 < length arr)%nat) by (destruct arr; [contradiction | simpl; lia]).
  destruct (lookup_lt_is_Some_2 arr (rnd mod length arr)%nat) as [x Hx];
    [apply Nat.mod_upper_bound; lia |].
  rewrite Hx. simpl. exact (list_elem_of_lookup_2 _ _ _ Hx).
Qed.

Lemma pick_onto (arr : list jstr) (t : jstr) : t ∈ arr -> ∃ rnd, pick arr rnd = t.
Proof.
  intros Ht. apply list_elem_of_lookup_1 in Ht as [i Hi].
  exists i. unfold pick. rewrite Nat.mod_small; [rewrite Hi; reflexivity |].
  exact (lookup_lt_Some _ _ _ Hi).
Qed.

Lemma bankByLevel_nonempty (level : jstr) : bankByLevel level ≠ [].
Proof. unfold bankByLevel. destruct (decide _); [| destruct (decide _)]; discriminate. Qed.

(** In [MOCK_TEXT] mode POST /agent/generate-text answers 200 with a
    sentence of the level's bank and source [mock], whatever the providers do. *)
Theorem generate_text_endpoint_mock (env : Env) (language level : jstr) (rnd : nat) :
  MOCK_TEXT env = true ->
  ∃ t, t ∈ bankByLevel level
    ∧ ∀ g o, generate_text_endpoint env language level rnd g o
             = (200, [("ok"%string, JBool true); ("text"%string, JStr t); ("level"%string, JStr level);
                      ("language"%string, JStr language); ("source"%string, JStr (js "mock"))]).
Proof.
  intros Hm. exists (pick (bankByLevel level) rnd). split.
  - apply pick_in, bankByLevel_nonempty.
  - intros g o. unfold generate_text_endpoint. rewrite Hm. reflexivity.
Qed.

(** Outside mock mode a 200 answer of POST /agent/generate-text carries a
    non-empty text without surrounding whitespace, and its source is [groq]
    or [openai]. *)
Theorem generate_text_endpoint_live_ok (env : Env) (language level : jstr) (rnd : nat)
    (g o : call) (body : list (string * jval)) :
  MOCK_TEXT env = false ->
  generate_text_endpoint env language level rnd g o = (200, body) ->
  ∃ t src, body = [("ok"%string, JBool true); ("text"%string, JStr t); ("level"%string, JStr level);
                   ("language"%string, JStr language); ("source"%string, JStr src)]
    ∧ t ≠ [] ∧ no_edge_space t ∧ (src = js "groq" ∨ src = js "openai").
Proof.
  intros Hm He. unfold generate_text_endpoint in He. rewrite Hm in He.
  destruct (result (race env g o)) as [w | e] eqn:Hr.
  - destruct (decide _) as [_ | Hne].
    + pose proof (error_response_code (ErrorMsg (js "EMPTY_GENERATION"))) as Hc.
      rewrite He in Hc. simpl in Hc. lia.
    + injection He as <-. eexists _, _. split; [reflexivity |].
      split; [exact Hne | split; [apply no_edge_space_trim |]].
      exact (race_fulfilled_provider env g o w Hr).
  - pose proof (error_response_code e) as Hc. rewrite He in Hc. simpl in Hc. lia.
Qed.

Lemma chooseMostNovel_in (cands : list jstr) (history : option (list jstr)) :
  cands ≠ [] -> chooseMostNovel cands history ∈ cands.
Proof.
  intros Hc. destruct cands as [| c rest]; [contradiction |].
  destruct history as [[| h0 hs] |];
    try (simpl; unfold js_or; destruct (decide (c = [])) as [-> |]; left).
  set (f := fun (st : jstr * Q) (c0 : jstr) =>
              let '(best, bestScore) := st in
              let maxSim := js_max0 (map (jaccard c0) (h0 :: hs)) in
              if Qltb maxSim bestScore then (c0, maxSim) else (best, bestScore)).
  assert (Hinv := foldl_keeps_or_takes f (c :: rest)
                    ltac:(intros [b q] c0; simpl; destruct (Qltb _ _); [right | left]; reflexivity)
                    (c :: rest) ([], 1%Q) ltac:(intros x Hx; exact Hx) ltac:(left; reflexivity)).
  change (chooseMostNovel (c :: rest) (Some (h0 :: hs))) with
    (let '(best, _) := foldl f ([], 1%Q) (c :: rest) in
     default [] (js_or (js_or (Some best) (Some c)) (Some []))).
  destruct (foldl f ([], 1%Q) (c :: rest)) as [best sc]. simpl in Hinv.
  apply js_or_first_member. exact Hinv.
Qed.

Lemma sanitize_no_edge_space (isLM : Z -> bool) (name raw : jstr) :
  no_edge_space (sanitizeNoName isLM name raw).
Proof.
  destruct (sanitize_edges isLM name raw) as [Hh Hl]. split; [| exact Hl].
  intros c Hc. specialize (Hh c Hc). unfold is_lead_junk in Hh.
  repeat rewrite orb_false_iff in Hh. tauto.
Qed.

Lemma js_or_provider (env : Env) (g o : call) (w : ProviderResult) :
  result (race env g o) = Fulfilled w ->
  default (js "unknown") (js_or (Some (provider w)) None) = provider w
  ∧ (provider w = js "groq" ∨ provider w = js "openai").
Proof.
  intros Hw. pose proof (race_fulfilled_provider env g o w Hw) as Hp. split; [| exact Hp].
  unfold js_or. destruct (decide (provider w = [])) as [E |]; [| reflexivity].
  destruct Hp as [Hp | Hp]; rewrite Hp in E; discriminate.
Qed.

(** A 200 answer of POST /agent/generate-greeting carries a non-empty
    greeting without surrounding whitespace and source [groq] or [openai];
    the greeting is stored as the newest entry of the profile's history,
    followed by at most 19 older ones. *)
Theorem generate_greeting_endpoint_ok (isLM : Z -> bool) (env : Env) (h : history_map)
    (name : jstr) (age : option Z) (g o : call) (h' : history_map) (body : list (string * jval)) :
  generate_greeting_endpoint isLM env h name age g o = (h', (200, body)) ->
  ∃ t src, body = [("ok"%string, JBool true); ("text"%string, JStr t); ("source"%string, JStr src)]
    ∧ t ≠ [] ∧ no_edge_space t ∧ (src = js "groq" ∨ src = js "openai")
    ∧ h' !! profileKey name age = Some (t :: take 19 (default [] (h !! profileKey name age))).
Proof.
  intros He. unfold generate_greeting_endpoint, generateGreetingV2 in He. cbv zeta in He.
  destruct (result (race env g o)) as [w | e] eqn:Hr.
  - destruct (decide (greeting_candidates (text w) = [])) as [_ | Hne].
    + pose proof (error_response_code (ErrorMsg (js "EMPTY_GENERATION"))) as Hc.
      injection He as _ He. rewrite He in Hc. simpl in Hc. lia.
    + destruct (js_or_provider env g o w Hr) as [Hsrc Hp]. rewrite Hsrc in He.
      rewrite js_or_cleaned_picked in He.
      set (cands := greeting_candidates (text w)) in *.
      set (picked := chooseMostNovel cands _) in *.
      set (cleaned := sanitizeNoName isLM name picked) in *.
      set (ft := if decide (cleaned = []) then picked else cleaned) in *.
      injection He as <- <-.
      assert (Hft : ft ≠ [] ∧ no_edge_space ft).
      { unfold ft. destruct (decide (cleaned = [])) as [_ | Hc].
        - pose proof (greeting_candidates_edges (text w)) as Hall. fold cands in Hall.
          rewrite Forall_forall in Hall. apply Hall. apply chooseMostNovel_in. exact Hne.
        - split; [exact Hc | apply sanitize_no_edge_space]. }
      exists ft, (provider w). split; [reflexivity |].
      split; [exact (proj1 Hft) | split; [exact (proj2 Hft) | split; [exact Hp |]]].
      rewrite lookup_insert_eq. reflexivity.
  - pose proof (error_response_code e) as Hc. injection He as _ He. rewrite He in Hc.
    simpl in Hc. lia.
Qed.

(** A non-200 answer of POST /agent/generate-greeting is a 502 or a 504
    and leaves the greeting history unchanged. *)
Theorem generate_greeting_endpoint_error (isLM : Z -> bool) (env : Env) (h : history_map)
    (name : jstr) (age : option Z) (g o : call) (h' : history_map) (code : Z)
    (body : list (string * jval)) :
  generate_greeting_endpoint isLM env h name age g o = (h', (code, body)) ->
  code ≠ 200 -> h' = h ∧ (code = 502 ∨ code = 504).
Proof.
  intros He Hc. unfold generate_greeting_endpoint, generateGreetingV2 in He. cbv zeta in He.
  destruct (result (race env g o)) as [w | e] eqn:Hr.
  - destruct (decide (greeting_candidates (text w) = [])) as [_ | Hne].
    + injection He as <- Hcode _. split; [reflexivity | lia].
    + injection He as _ <- _. contradiction.
  - pose proof (error_response_code e) as Hcode. injection He as <- He. rewrite He in Hcode.
    simpl in Hcode. split; [reflexivity | exact Hcode].
Qed.

Section Preserve.

Variable P : Z -> Prop.

Lemma Forall_collapse_go (b : bool) (s : jstr) : P 32 -> Forall P s -> Forall P (collapse_go b s).
Proof.
  intros H32 Hs. revert b. induction Hs as [| c s Hc _ IH]; intros b; simpl; [constructor |].
  destruct (is_space c); [destruct b; [apply IH | constructor; [exact H32 | apply IH]] |].
  constructor; [exact Hc | apply IH].
Qed.

Lemma Forall_drop_while (p : Z -> bool) (s : jstr) : Forall P s -> Forall P (drop_while p s).
Proof.
  induction 1 as [| c s Hc Hs IH]; simpl; [constructor |].
  destruct (p c); [exact IH | constructor; assumption].
Qed.

Lemma Forall_js_trim (s : jstr) : Forall P s -> Forall P (js_trim s).
Proof.
  intros Hs. unfold js_trim, js_trim_start.
  apply Forall_reverse, Forall_drop_while, Forall_reverse, Forall_drop_while, Hs.
Qed.

Lemma Forall_remove_quoted_go (open : option (Z * jstr)) (s : jstr) :
  Forall P s ->
  match open with Some (q, buf) => P q ∧ Forall P buf | None => True end ->
  Forall P (remove_quoted_go open s).
Proof.
  intros Hs. revert open. induction Hs as [| c s Hc Hs IH]; intros open Ho; simpl.
  - destruct open as [[q buf] |]; [| constructor].
    constructor; [exact (proj1 Ho) | apply Forall_reverse, (proj2 Ho)].
  - destruct open as [[q buf] |].
    + destruct (is_quote_delim c); [apply IH; exact I |].
      destruct (is_line_term c).
      * constructor; [exact (proj1 Ho) |]. apply Forall_app; split.
        -- apply Forall_reverse, (proj2 Ho).
        -- constructor; [exact Hc | apply IH; exact I].
      * apply IH. split; [exact (proj1 Ho) | constructor; [exact Hc | exact (proj2 Ho)]].
    + destruct (is_quote_delim c).
      * apply IH. split; [exact Hc | constructor].
      * constructor; [exact Hc | apply IH; exact I].
Qed.

Lemma Forall_split_sentences_go (a b : bool) (cur s : jstr) :
  Forall P s -> Forall P cur -> Forall (Forall P) (split_sentences_go a b cur s).
Proof.
  intros Hs. revert a b cur. induction Hs as [| c s Hc Hs IH]; intros a b cur Hcur; simpl.
  - constructor; [apply Forall_reverse, Hcur | constructor].
  - destruct (is_space c && (b || a)).
    + destruct b; [apply IH, Hcur |].
      constructor; [apply Forall_reverse, Hcur | apply IH; constructor].
    + apply IH. constructor; assumption.
Qed.

Lemma Forall_join_space (l : list jstr) : P 32 -> Forall (Forall P) l -> Forall P (join_space l).
Proof.
  intros H32. induction 1 as [| w ws Hw Hws IH]; [constructor |].
  destruct ws as [| w' ws']; [exact Hw |].
  change (Forall P (w ++ 32 :: join_space (w' :: ws'))).
  apply Forall_app. split; [exact Hw | constructor; [exact H32 | exact IH]].
Qed.

Lemma Forall_keep_first_emoji (b : bool) (s : jstr) : Forall P s -> Forall P (keep_first_emoji b s).
Proof.
  intros Hs. revert b. induction Hs as [| c s Hc Hs IH]; intros b; simpl; [constructor |].
  destruct (is_emoji c); [destruct b; [apply IH | constructor; [exact Hc | apply IH]] |].
  constructor; [exact Hc | apply IH].
Qed.

Lemma Forall_slice_units (n : nat) (s : jstr) :
  (∀ c, 65536 <= c -> P c -> P (high_surrogate c)) -> Forall P s -> Forall P (slice_units n s).
Proof.
  intros Hhs Hs. revert n. induction Hs as [| c s Hc Hs IH]; intros n;
    destruct n as [| n']; simpl; try constructor.
  destruct (65536 <=? c) eqn:E.
  - apply Z.leb_le in E. destruct n' as [| n''].
    + constructor; [exact (Hhs c E Hc) | constructor].
    + constructor; [exact Hc | apply IH].
  - constructor; [exact Hc | apply IH].
Qed.

Lemma Forall_strip_last_word (s : jstr) : Forall P s -> Forall P (strip_last_word s).
Proof.
  intros Hs. unfold strip_last_word.
  pose proof (Forall_drop_while (fun c => negb (is_space c)) (reverse s)
                (proj2 (Forall_reverse P s) Hs)) as Hd.
  destruct (drop_while _ (reverse s)) as [| c r]; [exact Hs |].
  apply Forall_reverse, Forall_drop_while, Hd.
Qed.

(** Every step of [tightenMotivation] after its first [replace] keeps a
    character property that holds for the space, the period and the high
    surrogate left by a cut pair. *)
Lemma Forall_tighten_steps (s : jstr) (maxChars : nat) :
  P 32 -> P 46 -> (∀ c, 65536 <= c -> P c -> P (high_surrogate c)) ->
  Forall P s ->
  Forall P
    (let s := js_trim (collapse_ws s) in
     let s := js_trim (collapse_ws (remove_quoted s)) in
     let parts := filter_nonempty (split_sentences s) in
     let s := js_trim (join_space (take 2 parts)) in
     let s := keep_first_emoji false s in
     let s := if decide (maxChars < utf16_len s)%nat
              then js_trim (strip_last_word (slice_units maxChars s)) else s in
     if ends_terminal s then s else s ++ [46]).
Proof.
  intros H32 H46 Hhs Hs. cbv zeta.
  assert (H1 := Forall_js_trim _ (Forall_collapse_go false _ H32 Hs)).
  assert (H2 := Forall_js_trim _ (Forall_collapse_go false _ H32
                  (Forall_remove_quoted_go None _ H1 I))).
  assert (H3 : Forall (Forall P) (filter_nonempty (split_sentences
                 (js_trim (collapse_ws (remove_quoted (js_trim (collapse_ws s)))))))).
  { apply Forall_forall. intros x Hx. apply list_elem_of_filter in Hx as [_ Hx]. revert x Hx.
    apply Forall_forall. apply Forall_split_sentences_go; [exact H2 | constructor]. }
  assert (H4 := Forall_keep_first_emoji false _
                  (Forall_js_trim _ (Forall_join_space _ H32 (Forall_take _ 2 _ H3)))).
  set (s5 := keep_first_emoji false _) in *.
  assert (H6 : Forall P (if decide (maxChars < utf16_len s5)%nat
                         then js_trim (strip_last_word (slice_units maxChars s5)) else s5)).
  { destruct (decide _); [| exact H4].
    apply Forall_js_trim, Forall_strip_last_word, Forall_slice_units; assumption. }
  destruct (ends_terminal _); [exact H6 |].
  apply Forall_app. split; [exact H6 | constructor; [exact H46 | constructor]].
Qed.

End Preserve.

Lemma high_surrogate_range (c : Z) : 0xD800 <= high_surrogate c <= 0xDBFF.
Proof.
  unfold high_surrogate.
  pose proof (Z.mod_pos_bound (Z.shiftr (c - 0x10000) 10) 1024 ltac:(lia)). lia.
Qed.

(** [tightenMotivation] never outputs a straight or curly double quote, a
    low quote, an apostrophe or a parenthesis; every other character of its
    output comes from the input, or is a space, the appended period, or the
    high surrogate of an input character whose pair was cut. *)
Theorem tightenMotivation_chars (s : jstr) (maxChars : nat) :
  Forall (fun c => is_quote_paren c = false
                   ∧ (c ∈ s ∨ c = 32 ∨ c = 46 ∨ ∃ d, d ∈ s ∧ c = high_surrogate d))
    (tightenMotivation s maxChars).
Proof.
  unfold tightenMotivation.
  destruct (decide (s = [])) as [-> | _]; [constructor |].
  apply Forall_tighten_steps.
  - split; [reflexivity | right; left; reflexivity].
  - split; [reflexivity | right; right; left; reflexivity].
  - intros c Hc [_ [Hin | [-> | [-> | (d & _ & ->)]]]]; try (pose proof (high_surrogate_range d)); try lia.
    pose proof (high_surrogate_range c).
    split; [unfold is_quote_paren; repeat rewrite orb_false_iff; repeat split; apply Z.eqb_neq; lia |].
    right; right; right. exists c. split; [exact Hin | reflexivity].
  - apply Forall_forall. intros c Hc. apply list_elem_of_filter in Hc as [Hq Hc].
    split; [apply negb_true_iff, Is_true_true; exact Hq | left; exact Hc].
Qed.

Lemma tighten_terminal_emoji (s : jstr) (maxChars : nat) :
  s ≠ [] ->
  ends_terminal (tightenMotivation s maxChars) = true
  ∧ (count_emoji (tightenMotivation s maxChars) <= 1)%nat.
Proof.
  intros Hs. unfold tightenMotivation.
  destruct (decide (s = [])) as [E | _]; [contradiction |].
  cbv zeta.
  set (s5 := keep_first_emoji false _).
  assert (H5 : (count_emoji s5 <= 1)%nat) by apply keep_first_emoji_at_most_one.
  set (s6 := if decide (maxChars < utf16_len s5)%nat
             then js_trim (strip_last_word (slice_units maxChars s5)) else s5).
  assert (H6 : (count_emoji s6 <= 1)%nat).
  { unfold s6. destruct (decide _); [| exact H5].
    etransitivity; [apply count_emoji_trim |].
    etransitivity; [apply count_emoji_strip_last_word |].
    etransitivity; [apply count_emoji_slice_units | exact H5]. }
  destruct (ends_terminal s6) eqn:Et.
  - split; [exact Et | exact H6].
  - split; [apply ends_terminal_app_period |].
    rewrite count_emoji_app. change (count_emoji [46]) with 0%nat. lia.
Qed.

Lemma ends_terminal_nonempty (s : jstr) : ends_terminal s = true -> s ≠ [].
Proof. intros H ->. discriminate. Qed.

Lemma tighten_nil_iff (s : jstr) (maxChars : nat) : tightenMotivation s maxChars = [] ↔ s = [].
Proof.
  split; [| intros ->; reflexivity].
  intros H. destruct (decide (s = [])) as [| Hs]; [assumption |].
  exfalso. apply (ends_terminal_nonempty _ (proj1 (tighten_terminal_emoji s maxChars Hs))), H.
Qed.

Lemma tighten_no_quote_paren (s : jstr) (maxChars : nat) :
  Forall (fun c => is_quote_paren c = false) (tightenMotivation s maxChars).
Proof.
  unfold tightenMotivation. destruct (decide (s = [])) as [-> | _]; [constructor |].
  apply Forall_tighten_steps; try reflexivity.
  - intros c _ _. pose proof (high_surrogate_range c).
    unfold is_quote_paren; repeat rewrite orb_false_iff; repeat split; apply Z.eqb_neq; lia.
  - apply Forall_forall. intros c Hc. apply list_elem_of_filter in Hc as [Hq _].
    apply negb_true_iff, Is_true_true. exact Hq.
Qed.

(** When the race is won, [generateMotivation] throws [EMPTY_MOTIVATION]
    exactly when the winner's text is empty after trimming and quote
    stripping; otherwise it returns that text tightened, with the winner's
    provider. *)
Theorem generateMotivation_fulfilled (env : Env) (g o : call) (w : ProviderResult) :
  result (race env g o) = Fulfilled w ->
  let out := js_trim (strip_outer_quotes (js_trim (text w))) in
  (out = [] -> generateMotivation env g o = inl (ErrorMsg (js "EMPTY_MOTIVATION")))
  ∧ (out ≠ [] -> generateMotivation env g o = inr (tightenMotivation out 160, provider w)).
Proof.
  intros Hw out. unfold generateMotivation. rewrite Hw. fold out.
  destruct (js_or_provider env g o w Hw) as [Hsrc _]. rewrite Hsrc.
  split.
  - intros ->. reflexivity.
  - intros Hne. destruct (decide (tightenMotivation out 160 = [])) as [E |]; [| reflexivity].
    apply tighten_nil_iff in E. contradiction.
Qed.

(** A 200 answer of POST /agent/motivate carries a non-empty text that ends
    in terminal punctuation, holds at most one emoji character and no quote
    or parenthesis, with source [groq] or [openai]. *)
Theorem motivate_endpoint_ok (env : Env) (g o : call) (body : list (string * jval)) :
  motivate_endpoint env g o = (200, body) ->
  ∃ t src, body = [("ok"%string, JBool true); ("text"%string, JStr t); ("source"%string, JStr src)]
    ∧ t ≠ [] ∧ ends_terminal t = true ∧ (count_emoji t <= 1)%nat
    ∧ Forall (fun c => is_quote_paren c = false) t
    ∧ (src = js "groq" ∨ src = js "openai").
Proof.
  intros He. unfold motivate_endpoint in He.
  destruct (generateMotivation env g o) as [e | [raw src]] eqn:Hg.
  - destruct (decide _) in He; injection He; intros; lia.
  - injection He as <-.
    unfold generateMotivation in Hg.
    destruct (result (race env g o)) as [w | e] eqn:Hw; [| discriminate].
    destruct (js_or_provider env g o w Hw) as [Hsrc Hp]. rewrite Hsrc in Hg.
    destruct (decide _) as [| Hne]; [discriminate |].
    injection Hg as Hraw Hsrc'. rewrite Hraw in Hne. clear Hraw.
    destruct (tighten_terminal_emoji raw 160 Hne) as [Ht He].
    exists (tightenMotivation raw 160), src. split; [reflexivity |].
    split; [exact (ends_terminal_nonempty _ Ht) |].
    split; [exact Ht | split; [exact He | split; [apply tighten_no_quote_paren |]]].
    rewrite <- Hsrc'. exact Hp.
Qed.

Lemma ratio_unit (i u : Z) : 0 <= i <= u -> 0 < u -> (0 <= inject_Z i / inject_Z u <= 1)%Q.
Proof.
  intros Hi Hu.
  assert (Hu' : (0 < inject_Z u)%Q) by (change 0%Q with (inject_Z 0); rewrite <- Zlt_Qlt; lia).
  split.
  - apply Qle_shift_div_l; [exact Hu' |]. rewrite Qmult_0_l.
    change 0%Q with (inject_Z 0). rewrite <- Zle_Qle. lia.
  - apply Qle_shift_div_r; [exact Hu' |]. rewrite Qmult_1_l. rewrite <- Zle_Qle. lia.
Qed.

Lemma inter_count_le (A B : list jstr) :
  NoDup A -> (inter_count A B <= length A)%nat ∧ (inter_count A B <= length B)%nat.
Proof.
  intros NA. unfold inter_count. split; [apply length_filter |].
  apply submseteq_length, NoDup_submseteq; [apply NoDup_filter, NA |].
  intros x Hx. apply list_elem_of_filter in Hx. tauto.
Qed.

Lemma jaccard_in_unit (a b : jstr) : (0 <= jaccard a b <= 1)%Q.
Proof.
  unfold jaccard.
  set (A := js_set (tokens a)). set (B := js_set (tokens b)).
  destruct (decide _) as [_ | Hn]; [split; discriminate |].
  destruct (inter_count_le A B (js_set_NoDup _)) as [IA IB].
  apply ratio_unit; lia.
Qed.

(** [jaccard] always lies between 0 and 1. *)
Theorem jaccard_range (a b : jstr) : (0 <= jaccard a b <= 1)%Q.
Proof. apply jaccard_in_unit. Qed.

Lemma foldl_Qmax_le (x b : Q) (xs : list Q) :
  (x <= b)%Q -> Forall (fun q => (q <= b)%Q) xs -> (foldl Qmax x xs <= b)%Q.
Proof.
  intros Hx Hxs. revert x Hx. induction Hxs as [| q xs Hq _ IH]; intros x Hx; simpl; [exact Hx |].
  apply IH. apply Q.max_lub; assumption.
Qed.

Lemma novelty_score_le1 (c : jstr) (h : list jstr) : (novelty_score c h <= 1)%Q.
Proof.
  unfold novelty_score, js_max0. apply foldl_Qmax_le; [discriminate |].
  apply Forall_forall. intros q Hq. apply list_elem_of_fmap in Hq as [d [-> _]].
  apply jaccard_in_unit.
Qed.

Section Novel.

Variable score : jstr -> Q.
Variable f : jstr * Q -> jstr -> jstr * Q.
Hypothesis Hf : ∀ best bs c,
  f (best, bs) c = if Qltb (score c) bs then (c, score c) else (best, bs).

Lemma novelty_fold_inv (l : list jstr) :
  let '(best, bs) := foldl f ([], 1%Q) l in
  (best = [] ∧ bs = 1%Q ∧ ∀ c, c ∈ l -> (1 <= score c)%Q)
  ∨ (∃ i, l !! i = Some best ∧ bs = score best ∧ (∀ c, c ∈ l -> (bs <= score c)%Q)
       ∧ ∀ j c, (j < i)%nat -> l !! j = Some c -> (bs < score c)%Q).
Proof.
  induction l as [| x l IH] using rev_ind.
  - left. split; [reflexivity | split; [reflexivity |]]. intros c Hc. inversion Hc.
  - rewrite foldl_app. simpl. destruct (foldl f ([], 1%Q) l) as [best bs]. rewrite Hf.
    destruct (Qltb (score x) bs) eqn:E.
    + apply Qltb_spec in E. right. exists (length l).
      split; [apply lookup_snoc_Some; right; split; reflexivity | split; [reflexivity |]].
      assert (Hl : ∀ c, c ∈ l -> (score x < score c)%Q).
      { intros c Hc. destruct IH as [(_ & -> & H1) | (i & _ & _ & H2 & _)].
        - apply Qlt_le_trans with 1%Q; [exact E | apply H1, Hc].
        - apply Qlt_le_trans with bs; [exact E | apply H2, Hc]. }
      split.
      * intros c Hc. apply elem_of_app in Hc as [Hc | Hc].
        -- apply Qlt_le_weak, Hl, Hc.
        -- apply list_elem_of_singleton in Hc. subst. apply Qle_refl.
      * intros j c Hj Hc. apply lookup_snoc_Some in Hc as [[_ Hc] | [-> _]]; [| lia].
        apply Hl. exact (list_elem_of_lookup_2 _ _ _ Hc).
    + assert (Hx : (bs <= score x)%Q).
      { apply Qnot_lt_le. intros Hlt. apply Qltb_spec in Hlt. congruence. }
      destruct IH as [(-> & -> & H1) | (i & Hi & Hbs & H2 & H3)].
      * left. split; [reflexivity | split; [reflexivity |]].
        intros c Hc. apply elem_of_app in Hc as [Hc | Hc]; [apply H1, Hc |].
        apply list_elem_of_singleton in Hc. subst. exact Hx.
      * right. exists i. split; [apply lookup_app_l_Some, Hi | split; [exact Hbs |]]. split.
        -- intros c Hc. apply elem_of_app in Hc as [Hc | Hc]; [apply H2, Hc |].
           apply list_elem_of_singleton in Hc. subst. exact Hx.
        -- intros j c Hj Hc. apply lookup_snoc_Some in Hc as [[_ Hc] | [-> _]].
           ++ exact (H3 j c Hj Hc).
           ++ pose proof (lookup_lt_Some _ _ _ Hi). lia.
Qed.

End Novel.

(** When every candidate is non-empty, [chooseMostNovel] returns the first
    candidate whose largest similarity to the history is minimal; when every
    candidate has similarity 1 the fallback [cands[0]] is that candidate. *)
Theorem chooseMostNovel_least_similar (cands h : list jstr) :
  cands ≠ [] -> Forall (fun c => c ≠ []) cands ->
  ∃ i, cands !! i = Some (chooseMostNovel cands (Some h))
    ∧ (∀ c, c ∈ cands -> (novelty_score (chooseMostNovel cands (Some h)) h <= novelty_score c h)%Q)
    ∧ (∀ j c, (j < i)%nat -> cands !! j = Some c ->
              (novelty_score (chooseMostNovel cands (Some h)) h < novelty_score c h)%Q).
Proof.
  intros Hne Hall. destruct cands as [| c0 rest]; [contradiction |].
  assert (Hc0 : c0 ≠ []) by (inversion Hall; assumption).
  destruct h as [| h0 hs].
  - exists 0%nat. simpl. unfold js_or. destruct (decide (c0 = [])) as [| _]; [contradiction |].
    simpl. split; [reflexivity | split].
    + intros c _. apply Qle_refl.
    + intros j c Hj. lia.
  - set (f := fun (st : jstr * Q) c =>
                let '(best, bestScore) := st in
                let maxSim := js_max0 (map (jaccard c) (h0 :: hs)) in
                if Qltb maxSim bestScore then (c, maxSim) else (best, bestScore)).
    pose proof (novelty_fold_inv (fun c => novelty_score c (h0 :: hs)) f
                  ltac:(intros; reflexivity) (c0 :: rest)) as Hinv.
    change (chooseMostNovel (c0 :: rest) (Some (h0 :: hs))) with
      (let '(best, _) := foldl f ([], 1%Q) (c0 :: rest) in
       default [] (js_or (js_or (Some best) (Some c0)) (Some []))).
    destruct (foldl f ([], 1%Q) (c0 :: rest)) as [best bs].
    destruct Hinv as [(-> & -> & H1) | (i & Hi & -> & H2 & H3)].
    + exists 0%nat. unfold js_or. destruct (decide ([] = [])) as [_ | C]; [| contradiction].
      destruct (decide (c0 = [])) as [| _]; [contradiction |]. simpl.
      split; [reflexivity | split].
      * intros c Hc. apply Qle_trans with 1%Q; [apply novelty_score_le1 | apply H1, Hc].
      * intros j c Hj. lia.
    + assert (Hb : best ≠ []).
      { rewrite Forall_forall in Hall. apply Hall. exact (list_elem_of_lookup_2 _ _ _ Hi). }
      exists i. unfold js_or. destruct (decide (best = [])) as [| _]; [contradiction |].
      destruct (decide (best = [])) as [| _]; [contradiction |]. simpl.
      split; [exact Hi | split; [exact H2 | exact H3]].
Qed.

Lemma chooseMostNovel_least_similar_witness :
  (∃ i, [js "Ala ma kota"; js "Ola pisze list"] !! i
          = Some (chooseMostNovel [js "Ala ma kota"; js "Ola pisze list"] (Some [js "Ala ma psa"]))
    ∧ (∀ c, c ∈ [js "Ala ma kota"; js "Ola pisze list"] ->
         (novelty_score (chooseMostNovel [js "Ala ma kota"; js "Ola pisze list"] (Some [js "Ala ma psa"]))
            [js "Ala ma psa"] <= novelty_score c [js "Ala ma psa"])%Q)
    ∧ (∀ j c, (j < i)%nat -> [js "Ala ma kota"; js "Ola pisze list"] !! j = Some c ->
         (novelty_score (chooseMostNovel [js "Ala ma kota"; js "Ola pisze list"] (Some [js "Ala ma psa"]))
            [js "Ala ma psa"] < novelty_score c [js "Ala ma psa"])%Q)).
Proof.
  apply chooseMostNovel_least_similar.
  - discriminate.
  - repeat constructor; discriminate.
Defined.

Lemma js_round_ge (n : Z) (a : Q) : n <= js_round a ↔ (inject_Z n <= a + (1 # 2))%Q.
Proof.
  unfold js_round. split.
  - intros H. apply Qle_trans with (inject_Z (Qfloor (a + (1 # 2)))); [| apply Qfloor_le].
    rewrite <- Zle_Qle. exact H.
  - intros H. rewrite <- (Qfloor_Z n). apply Qfloor_resp_le. exact H.
Qed.

Lemma rubric_threshold (n : Z) (b a : Q) :
  1 <= n <= 100 -> (b == inject_Z n - (1 # 2))%Q ->
  (n <=? Z.max 0 (Z.min 100 (js_round a))) = Qle_bool b a.
Proof.
  intros Hn Hb.
  assert (E : (n <=? Z.max 0 (Z.min 100 (js_round a))) = (n <=? js_round a)).
  { destruct (Z.leb_spec n (Z.max 0 (Z.min 100 (js_round a)))), (Z.leb_spec n (js_round a));
      reflexivity || lia. }
  rewrite E. apply eq_true_iff_eq. rewrite Z.leb_le, Qle_bool_iff, js_round_ge, Hb.
  split; intros; lra.
Qed.

(** [rubricByAccuracy] picks the top rubric from accuracy 94.5 on, the very
    good one from 79.5, the good one from 59.5, and the warm-up rubric below
    that or for a missing accuracy. *)
Theorem rubricByAccuracy_thresholds (a : Q) :
  rubricByAccuracy (Some a)
  = (if Qle_bool (189 # 2) a then RUBRIC_95
     else if Qle_bool (159 # 2) a then RUBRIC_80
     else if Qle_bool (119 # 2) a then RUBRIC_60
     else RUBRIC_LOW)
  ∧ rubricByAccuracy None = RUBRIC_LOW.
Proof.
  split; [| reflexivity].
  unfold rubricByAccuracy.
  rewrite (rubric_threshold 95 (189 # 2)), (rubric_threshold 80 (159 # 2)),
    (rubric_threshold 60 (119 # 2)); try reflexivity; lia.
Qed.

Lemma holding_insert (l : list ocr_task) (i : nat) (x y : ocr_task) :
  l !! i = Some y ->
  (length (filter (fun t => t = Holding) (<[i := x]> l)) + (if decide (y = Holding) then 1 else 0)
   = length (filter (fun t => t = Holding) l) + (if decide (x = Holding) then 1 else 0))%nat.
Proof.
  revert i. induction l as [| z l IH]; intros i Hi; [discriminate |].
  destruct i as [| i]; simpl in Hi.
  - injection Hi as ->. change (<[0%nat := x]> (y :: l)) with (x :: l). rewrite !filter_cons.
    destruct (decide (x = Holding)), (decide (y = Holding)); simpl; lia.
  - change (<[S i := x]> (z :: l)) with (z :: <[i := x]> l). rewrite !filter_cons.
    specialize (IH i Hi). destruct (decide (z = Holding)); simpl; lia.
Qed.

Lemma limiter_step_inv (m : Z) (st : limiter) (ev : limiter_event) :
  limiter_inv m st -> limiter_inv m (limiter_step (Some (inject_Z m)) st ev).
Proof.
  intros [Hin Hle]. unfold limiter_inv, holding_count in *.
  destruct st as [n ts]; simpl in *.
  destruct ev as [| i | i]; simpl.
  - rewrite filter_app, length_app. simpl. split; lia.
  - destruct (ts !! i) as [[] |] eqn:Ei; simpl; try (split; assumption).
    destruct (Qle_bool (inject_Z m) (inject_Z n)) eqn:Eq; simpl; [split; assumption |].
    assert (Hlt : n < m).
    { destruct (Z.lt_ge_cases n m) as [| Hge]; [assumption |].
      rewrite Zle_Qle in Hge. apply Qle_bool_iff in Hge. congruence. }
    pose proof (holding_insert ts i Holding Waiting Ei) as Hc. simpl in Hc. lia.
  - destruct (ts !! i) as [[] |] eqn:Ei; simpl; try (split; assumption).
    pose proof (holding_insert ts i Finished Holding Ei) as Hc. simpl in Hc. lia.
Qed.

(** With a numeric [MAX_CONCURRENCY] m, after any interleaving of OCR
    requests [inflight] equals the number of requests holding a slot, and
    that number never exceeds max(m, 0). *)
Theorem limiter_respects_max (m : Z) (evs : list limiter_event) :
  let st := limiter_run (Some (inject_Z m)) {| inflight := 0; ocr_tasks := [] |} evs in
  inflight st = Z.of_nat (holding_count st) ∧ Z.of_nat (holding_count st) <= Z.max m 0.
Proof.
  cbv zeta. unfold limiter_run.
  assert (H0 : limiter_inv m {| inflight := 0; ocr_tasks := [] |})
    by (unfold limiter_inv, holding_count; simpl; lia).
  revert H0. generalize {| inflight := 0; ocr_tasks := [] |} as st.
  induction evs as [| ev evs IH]; intros st Hst; simpl; [exact Hst |].
  apply IH, limiter_step_inv, Hst.
Qed.

(** [trimUserContent] returns a suffix of the compacted text: all of it when
    it fits the limit or when the limit is 0, and exactly [limit] code units
    when 0 < limit < its length. *)
Theorem trimUserContent_suffix (s : jstr) (limit : Z) :
  let compact := utf16_units (js_trim (collapse_ws s)) in
  (∃ pre, compact = pre ++ trimUserContent s limit)
  ∧ (Z.of_nat (length compact) <= limit -> trimUserContent s limit = compact)
  ∧ (0 < limit < Z.of_nat (length compact) -> Z.of_nat (length (trimUserContent s limit)) = limit)
  ∧ (limit = 0 -> trimUserContent s limit = compact).
Proof.
  cbv zeta. unfold trimUserContent, js_slice_from.
  set (u := utf16_units (js_trim (collapse_ws s))).
  split; [| split; [| split]].
  - destruct (Z.of_nat (length u) >? limit); [| exists []; reflexivity].
    eexists. symmetry. apply take_drop.
  - intros H. destruct (Z.gtb_spec (Z.of_nat (length u)) limit); [lia | reflexivity].
  - intros H. destruct (Z.gtb_spec (Z.of_nat (length u)) limit); [| lia].
    destruct (Z.ltb_spec (- limit) 0); [| lia].
    rewrite length_drop. lia.
  - intros ->. destruct (Z.of_nat (length u) >? 0); [| reflexivity].
    simpl. rewrite Z.min_l by lia. reflexivity.
Qed.

Lemma jaccard_index_comm (A B : gset jstr) : jaccard_index A B = jaccard_index B A.
Proof. unfold jaccard_index. rewrite (union_comm_L A B), (intersection_comm_L A B). reflexivity. Qed.

Lemma jaccard_index_self (A : gset jstr) : (jaccard_index A A == 1)%Q.
Proof.
  unfold jaccard_index. rewrite (union_idemp_L A), (intersection_idemp_L A).
  destruct (decide (A = ∅)) as [| Hn]; [reflexivity |].
  rewrite set_empty_size in Hn.
  assert (Hq : ~ (inject_Z (Z.of_nat (size A)) == 0)%Q).
  { change 0%Q with (inject_Z 0). rewrite inject_Z_injective. lia. }
  field. exact Hq.
Qed.

(** The ASR accuracy [jacc] is symmetric and is 100 for a text compared
    with itself. *)
Theorem jacc_symmetric_self (isLM : Z -> bool) (a b : jstr) :
  jacc isLM a b = jacc isLM b a ∧ jacc isLM a a = 100.
Proof.
  rewrite !jacc_jaccard_index. split; [rewrite jaccard_index_comm; reflexivity |].
  rewrite (dbl_comp _ _ (jaccard_index_self _)). vm_compute. reflexivity.
Qed.

Lemma generate_text_endpoint_mock_witness :
  MOCK_TEXT env_mock = true
  ∧ ∃ t, t ∈ bankByLevel (js "b1")
    ∧ ∀ g o, generate_text_endpoint env_mock (js "pl") (js "b1") 3 g o
             = (200, [("ok"%string, JBool true); ("text"%string, JStr t); ("level"%string, JStr (js "b1"));
                      ("language"%string, JStr (js "pl")); ("source"%string, JStr (js "mock"))]).
Proof. split; [reflexivity |]. apply generate_text_endpoint_mock. reflexivity. Defined.

Lemma generate_text_endpoint_live_ok_witness :
  MOCK_TEXT env_groq = false
  ∧ generate_text_endpoint env_groq (js "pl") (js "A1") 0 text_call None
    = (200, (generate_text_endpoint env_groq (js "pl") (js "A1") 0 text_call None).2)
  ∧ ∃ t src, (generate_text_endpoint env_groq (js "pl") (js "A1") 0 text_call None).2
             = [("ok"%string, JBool true); ("text"%string, JStr t); ("level"%string, JStr (js "A1"));
                ("language"%string, JStr (js "pl")); ("source"%string, JStr src)]
    ∧ t ≠ [] ∧ no_edge_space t ∧ (src = js "groq" ∨ src = js "openai").
Proof.
  assert (E : generate_text_endpoint env_groq (js "pl") (js "A1") 0 text_call None
              = (200, (generate_text_endpoint env_groq (js "pl") (js "A1") 0 text_call None).2))
    by (vm_compute; reflexivity).
  split; [reflexivity | split; [exact E |]].
  exact (generate_text_endpoint_live_ok env_groq (js "pl") (js "A1") 0 text_call None _ eq_refl E).
Defined.

Lemma generate_greeting_endpoint_ok_witness :
  generate_greeting_endpoint latin_letter_mark env_groq ∅ [] (Some 7) greeting_call None
  = ((generate_greeting_endpoint latin_letter_mark env_groq ∅ [] (Some 7) greeting_call None).1,
     (200, (generate_greeting_endpoint latin_letter_mark env_groq ∅ [] (Some 7) greeting_call None).2.2))
  ∧ ∃ t src,
      (generate_greeting_endpoint latin_letter_mark env_groq ∅ [] (Some 7) greeting_call None).2.2
      = [("ok"%string, JBool true); ("text"%string, JStr t); ("source"%string, JStr src)]
    ∧ t ≠ [] ∧ no_edge_space t ∧ (src = js "groq" ∨ src = js "openai")
    ∧ (generate_greeting_endpoint latin_letter_mark env_groq ∅ [] (Some 7) greeting_call None).1
        !! profileKey [] (Some 7)
      = Some (t :: take 19 (default [] ((∅ : history_map) !! profileKey [] (Some 7)))).
Proof.
  assert (E : generate_greeting_endpoint latin_letter_mark env_groq ∅ [] (Some 7) greeting_call None
    = ((generate_greeting_endpoint latin_letter_mark env_groq ∅ [] (Some 7) greeting_call None).1,
       (200, (generate_greeting_endpoint latin_letter_mark env_groq ∅ [] (Some 7) greeting_call None).2.2)))
    by (vm_compute; reflexivity).
  split; [exact E |].
  pose proof (generate_greeting_endpoint_ok latin_letter_mark env_groq ∅ [] (Some 7) greeting_call None)
    as H.
  exact (H _ _ E).
Defined.

Lemma generate_greeting_endpoint_error_witness :
  generate_greeting_endpoint latin_letter_mark env_none ∅ [] None None None
  = ((generate_greeting_endpoint latin_letter_mark env_none ∅ [] None None None).1,
     ((generate_greeting_endpoint latin_letter_mark env_none ∅ [] None None None).2.1,
      (generate_greeting_endpoint latin_letter_mark env_none ∅ [] None None None).2.2))
  ∧ (generate_greeting_endpoint latin_letter_mark env_none ∅ [] None None None).2.1 ≠ 200
  ∧ (generate_greeting_endpoint latin_letter_mark env_none ∅ [] None None None).1 = ∅
  ∧ ((generate_greeting_endpoint latin_letter_mark env_none ∅ [] None None None).2.1 = 502
     ∨ (generate_greeting_endpoint latin_letter_mark env_none ∅ [] None None None).2.1 = 504).
Proof.
  assert (E : generate_greeting_endpoint latin_letter_mark env_none ∅ [] None None None
    = ((generate_greeting_endpoint latin_letter_mark env_none ∅ [] None None None).1,
       ((generate_greeting_endpoint latin_letter_mark env_none ∅ [] None None None).2.1,
        (generate_greeting_endpoint latin_letter_mark env_none ∅ [] None None None).2.2)))
    by (vm_compute; reflexivity).
  assert (C : (generate_greeting_endpoint latin_letter_mark env_none ∅ [] None None None).2.1 ≠ 200)
    by (vm_compute; discriminate).
  split; [exact E | split; [exact C |]].
  exact (generate_greeting_endpoint_error latin_letter_mark env_none ∅ [] None None None _ _ _ E C).
Defined.

Lemma generateMotivation_fulfilled_witness :
  result (race env_groq motivation_call None) = Fulfilled motivation_winner
  ∧ let out := js_trim (strip_outer_quotes (js_trim (text motivation_winner))) in
    (out = [] -> generateMotivation env_groq motivation_call None = inl (ErrorMsg (js "EMPTY_MOTIVATION")))
    ∧ (out ≠ [] -> generateMotivation env_groq motivation_call None
                   = inr (tightenMotivation out 160, provider motivation_winner)).
Proof.
  assert (E : result (race env_groq motivation_call None) = Fulfilled motivation_winner)
    by (vm_compute; reflexivity).
  split; [exact E |].
  exact (generateMotivation_fulfilled env_groq motivation_call None motivation_winner E).
Defined.

Lemma motivate_endpoint_ok_witness :
  motivate_endpoint env_groq motivation_call None
    = (200, (motivate_endpoint env_groq motivation_call None).2)
  ∧ ∃ t src, (motivate_endpoint env_groq motivation_call None).2
             = [("ok"%string, JBool true); ("text"%string, JStr t); ("source"%string, JStr src)]
    ∧ t ≠ [] ∧ ends_terminal t = true ∧ (count_emoji t <= 1)%nat
    ∧ Forall (fun c => is_quote_paren c = false) t
    ∧ (src = js "groq" ∨ src = js "openai").
Proof.
  assert (E : motivate_endpoint env_groq motivation_call None
              = (200, (motivate_endpoint env_groq motivation_call None).2))
    by (vm_compute; reflexivity).
  split; [exact E |].
  exact (motivate_endpoint_ok env_groq motivation_call None _ E).
Defined.

